(** * Ping/pong protocol session and simulation step of ethereum-samples

    The development has two parts.

    - [Proto] embeds the [Run] function of the "foo" protocol of the
      message-exchange sample (the ping/pong loop gated by the two
      package-level wait groups [pingW] and [protoW]), first as the program
      of one session, then as a system of sessions that share [pingW] and
      talk over ordered connections.
    - [Sim] embeds the [check] predicate of the protocol-complex simulation
      and the step executor it is handed to.

    Three further parts look at the samples as a whole: [Exchange] at the
    shutdown of the message exchange through [protoW], [Reply] at the event
    loops of the reply sample, and [Harness] at what [main] of the
    simulation does around the step. *)

From stdpp Require Import base list strings gmap.
From Stdlib Require Import ZArith Lia.

Local Open Scope Z_scope.

Module Proto.

(** ** Data *)

(** A Go [error] is kept as the text of its [Error()] method. *)
Definition Error := string.

(** [time.Time], as a number of clock ticks. *)
Definition Time := Z.

Record FooPingMsg := mkFooPingMsg { Pong : bool; Created : Time }.

(** [p2p.Msg]: the message code and the payload.  The loop looks at the
    payload only through [msg.Decode(&decodedmsg)], so the payload is kept as
    the outcome of that call. *)
Record Msg := mkMsg { Code : Z; Payload : Error + FooPingMsg }.

Definition Decode (msg : Msg) : Error + FooPingMsg := Payload msg.

(** The message [p2p.Send(rw, code, m)] puts on the connection. *)
Definition Encode (code : Z) (m : FooPingMsg) : Msg :=
  {| Code := code; Payload := inr m |}.

(** [fmt.Errorf(prefix ++ ": %v", err)]. *)
Definition Errorf (prefix : string) (err : Error) : Error :=
  prefix +:+ ": " +:+ err.

(** ** The program of one session *)

(** Control points of [Run]; each one stands before the next operation that
    touches the connection or a wait group.  The local variable [ponged] is
    false at [AtAdd], [AtSendPing], [AtRead] and [AtSendPong] and true from
    [AtDone] on. *)
Inductive PC :=
| AtAdd                      (* pingW.Add(1) *)
| AtSendPing                 (* p2p.Send(rw, 0, FooPingMsg{Pong: false}) *)
| AtRead                     (* loop head: rw.ReadMsg(), msg.Decode *)
| AtSendPong                 (* p2p.Send(rw, 0, FooPingMsg{Pong: true}) *)
| AtDone                     (* ponged = true; pingW.Done() *)
| AtWait                     (* pingW.Wait() *)
| AtProtoDone                (* protoW.Done() *)
| Returned (r : option Error). (* return r *)

(** The operations a session performs, with their results. *)
Inductive Op :=
| OpAdd (delta : Z)
| OpSend (m : FooPingMsg) (r : option Error)
| OpRead (r : Error + Msg)
| OpDone
| OpWait
| OpProtoDone.

(** What a session sees of the rest of the world when it takes a step. *)
Record Input := mkInput {
  now : Time;              (* time.Now() *)
  io_err : option Error;   (* the failure of the connection operation, if any *)
  incoming : option Msg;   (* the next message of the connection, if any *)
  barrier : Z              (* the counter of pingW *)
}.

(** One operation of [Run].  [None]: the session is blocked (nothing to
    read, the barrier is not at zero) or has returned. *)
Definition lstep (pc : PC) (i : Input) : option (PC * Op) :=
  match pc with
  | AtAdd => Some (AtSendPing, OpAdd 1)
  | AtSendPing =>
      let msg := {| Pong := false; Created := now i |} in
      match io_err i with
      | Some err =>
          Some (Returned (Some (Errorf "Send p2p message fail" err)),
                OpSend msg (Some err))
      | None => Some (AtRead, OpSend msg None)
      end
  | AtRead =>
      match io_err i with
      | Some err =>
          Some (Returned (Some (Errorf "Receive p2p message fail" err)),
                OpRead (inl err))
      | None =>
          match incoming i with
          | None => None
          | Some msg =>
              match Decode msg with
              | inl err =>
                  Some (Returned (Some (Errorf "Decode p2p message fail" err)),
                        OpRead (inr msg))
              | inr decodedmsg =>
                  if Pong decodedmsg
                  then Some (AtDone, OpRead (inr msg))
                  else Some (AtSendPong, OpRead (inr msg))
              end
          end
      end
  | AtSendPong =>
      let msg := {| Pong := true; Created := now i |} in
      match io_err i with
      | Some err =>
          Some (Returned (Some (Errorf "Send p2p message fail" err)),
                OpSend msg (Some err))
      | None => Some (AtRead, OpSend msg None)
      end
  | AtDone => Some (AtWait, OpDone)
  | AtWait => if barrier i =? 0 then Some (AtProtoDone, OpWait) else None
  | AtProtoDone => Some (Returned None, OpProtoDone)
  | Returned _ => None
  end.

(** A session run against a script of inputs, one per scheduling turn; a
    turn at which the session is blocked leaves it where it is. *)
Fixpoint lrun (pc : PC) (ins : list Input) : PC * list Op :=
  match ins with
  | [] => (pc, [])
  | i :: ins' =>
      match lstep pc i with
      | None => lrun pc ins'
      | Some (pc', op) =>
          let '(pc'', ops) := lrun pc' ins' in (pc'', op :: ops)
      end
  end.

(** [Run]: the protocol function from its entry. *)
Definition Run (ins : list Input) : PC * list Op := lrun AtAdd ins.

(** ** Reading a history *)

(** The messages a session put on its connection. *)
Definition sent_msg (o : Op) : option FooPingMsg :=
  match o with OpSend m None => Some m | _ => None end.
Definition sentM (h : list Op) : list FooPingMsg := omap sent_msg h.

(** The messages a session took from its connection. *)
Definition rcvd_msg (o : Op) : option Msg :=
  match o with OpRead (inr msg) => Some msg | _ => None end.
Definition rcvdM (h : list Op) : list Msg := omap rcvd_msg h.

(** The shape of an operation: what was done and how it went, without the
    time stamps and the error texts. *)
Inductive Kind :=
| KAdd
| KSend (pong ok : bool)
| KReadErr
| KReadBad
| KRead (pong : bool)
| KDone
| KWait
| KProtoDone.

Definition kind (o : Op) : Kind :=
  match o with
  | OpAdd _ => KAdd
  | OpSend m None => KSend (Pong m) true
  | OpSend m (Some _) => KSend (Pong m) false
  | OpRead (inl _) => KReadErr
  | OpRead (inr msg) =>
      match Decode msg with
      | inl _ => KReadBad
      | inr d => KRead (Pong d)
      end
  | OpDone => KDone
  | OpWait => KWait
  | OpProtoDone => KProtoDone
  end.

Definition is_send (o : Op) : bool :=
  match o with OpSend _ _ => true | _ => false end.

Definition is_ping_in (i : Input) : Prop :=
  ∀ msg d, incoming i = Some msg → Decode msg = inr d → Pong d = false.

(** ** A system of sessions *)

(** The two ends of connection [k] are the sessions [2k] and [2k+1]. *)
Definition peer (i : nat) : nat := if Nat.even i then S i else Nat.pred i.

Record Session := mkSession { pc : PC; inbox : list Msg; hist : list Op }.

(** The shared state: the counters of the two package-level wait groups,
    whether a wait group has panicked, and the sessions. *)
Record Sys := mkSys {
  pingW : Z;
  protoW : Z;
  crashed : bool;
  sessions : list Session
}.

(** [sync.WaitGroup.Add]: a counter that would become negative panics. *)
Definition wg_add (v delta : Z) : option Z :=
  if v + delta <? 0 then None else Some (v + delta).

Definition set_pingW (s : Sys) (v : option Z) : Sys :=
  match v with
  | Some v => mkSys v (protoW s) (crashed s) (sessions s)
  | None => mkSys (pingW s) (protoW s) true (sessions s)
  end.

Definition set_protoW (s : Sys) (v : option Z) : Sys :=
  match v with
  | Some v => mkSys (pingW s) v (crashed s) (sessions s)
  | None => mkSys (pingW s) (protoW s) true (sessions s)
  end.

Definition set_sessions (s : Sys) (ss : list Session) : Sys :=
  mkSys (pingW s) (protoW s) (crashed s) ss.

Definition advance (pc' : PC) (o : Op) (se : Session) : Session :=
  mkSession pc' (inbox se) (hist se ++ [o]).
Definition pop (se : Session) : Session :=
  mkSession (pc se) (tail (inbox se)) (hist se).
Definition push (msg : Msg) (se : Session) : Session :=
  mkSession (pc se) (inbox se ++ [msg]) (hist se).

(** The effect of an operation of session [i] on the shared state. *)
Definition apply_op (i : nat) (o : Op) (s : Sys) : Sys :=
  match o with
  | OpAdd delta => set_pingW s (wg_add (pingW s) delta)
  | OpSend m None =>
      set_sessions s (alter (push (Encode 0 m)) (peer i) (sessions s))
  | OpSend _ (Some _) => s
  | OpRead (inr _) => set_sessions s (alter pop i (sessions s))
  | OpRead (inl _) => s
  | OpDone => set_pingW s (wg_add (pingW s) (-1))
  | OpWait => s
  | OpProtoDone => set_protoW s (wg_add (protoW s) (-1))
  end.

(** A scheduling choice: which session moves, the clock it reads and
    whether its connection operation fails. *)
Record Event := mkEvent { who : nat; ev_now : Time; ev_err : option Error }.

Definition view (s : Sys) (se : Session) (e : Event) : Input :=
  {| now := ev_now e; io_err := ev_err e;
     incoming := head (inbox se); barrier := pingW s |}.

Definition step (s : Sys) (e : Event) : option Sys :=
  if crashed s then None else
  match sessions s !! who e with
  | None => None
  | Some se =>
      match lstep (pc se) (view s se e) with
      | None => None
      | Some (pc', o) =>
          Some (apply_op (who e) o
                  (set_sessions s (alter (advance pc' o) (who e) (sessions s))))
      end
  end.

Fixpoint exec (s : Sys) (es : list Event) : option Sys :=
  match es with
  | [] => Some s
  | e :: es' =>
      match step s e with
      | None => None
      | Some s' => exec s' es'
      end
  end.

Definition idle : Session := mkSession AtAdd [] [].

(** [n] sessions about to start; [protoW] holds what [main] added. *)
Definition init (n : nat) (w : Z) : Sys := mkSys 0 w false (replicate n idle).

(** The sample itself: two servers, one connection, [protoW.Add(1)] twice. *)
Definition demo : Sys := init 2 2.

Definition reachable (n : nat) (w : Z) (s : Sys) : Prop :=
  ∃ es, exec (init n w) es = Some s.

(** Some schedules of the sample: every operation succeeds at clock 0, or
    the connection operation of the step fails. *)
Definition ok_at (i : nat) : Event := mkEvent i 0 None.
Definition fail_at (i : nat) (err : Error) : Event := mkEvent i 0 (Some err).

(** Both sessions join, exchange ping and pong, and return. *)
Definition happy : list Event :=
  [ok_at 0; ok_at 0; ok_at 1; ok_at 1; ok_at 0; ok_at 0; ok_at 1; ok_at 1;
   ok_at 0; ok_at 1; ok_at 0; ok_at 1; ok_at 0; ok_at 0; ok_at 1; ok_at 1].

(** Session 0 has its pong and waits at the barrier; session 1 has not read
    its pong yet. *)
Definition one_waiting : list Event :=
  [ok_at 0; ok_at 0; ok_at 1; ok_at 1; ok_at 0; ok_at 0; ok_at 1; ok_at 1;
   ok_at 0; ok_at 0].

(** Inputs of a single session: nothing arrives, or [msg] arrives. *)
Definition quiet : Input := mkInput 0 None None 0.
Definition arrives (msg : Msg) : Input := mkInput 0 None (Some msg) 0.

(** ** Notions used to state the properties *)

(** Whether the session has decoded a pong: the value [ponged] has once the
    branch on [decodedmsg.Pong] is taken. *)
Definition ponged (pc : PC) : bool :=
  match pc with
  | AtDone | AtWait | AtProtoDone | Returned None => true
  | _ => false
  end.

(** The session has added its unit to [pingW] and has not decoded a pong. *)
Definition joined (pc : PC) : Prop :=
  pc = AtSendPing ∨ pc = AtRead ∨ pc = AtSendPong.

(** The history holds the read of a message that decodes to a pong. *)
Definition acknowledged (h : list Op) : Prop :=
  ∃ msg d, OpRead (inr msg) ∈ h ∧ Decode msg = inr d ∧ Pong d = true.

(** [rw.ReadMsg()] or [msg.Decode] fails on this input, and [failure] is
    the error [Run] builds from it. *)
Definition read_fails (i : Input) (failure : Error) : Prop :=
  (∃ err, io_err i = Some err ∧ failure = Errorf "Receive p2p message fail" err) ∨
  (∃ msg err, io_err i = None ∧ incoming i = Some msg ∧ Decode msg = inl err ∧
              failure = Errorf "Decode p2p message fail" err).

(** Session [i] has not passed the barrier. *)
Definition before_exit (s : Sys) (i : nat) : Prop :=
  ∀ a, sessions s !! i = Some a → pc a ≠ AtProtoDone ∧ pc a ≠ Returned None.

(** The history of session [k]; empty when there is no such session. *)
Definition hist_at (s : Sys) (k : nat) : list Op :=
  from_option hist [] (sessions s !! k).

(** ** The shape of a history *)

(** [k] times: a ping is read and a pong is sent. *)
Fixpoint rounds (k : nat) : list Kind :=
  match k with
  | O => []
  | S k' => KRead false :: KSend true true :: rounds k'
  end.

Definition base (k : nat) : list Kind := KAdd :: KSend false true :: rounds k.

(** The histories that lead to each control point. *)
Definition shape (pc : PC) (ks : list Kind) : Prop :=
  match pc with
  | AtAdd => ks = []
  | AtSendPing => ks = [KAdd]
  | AtRead => ∃ k, ks = base k
  | AtSendPong => ∃ k, ks = base k ++ [KRead false]
  | AtDone => ∃ k, ks = base k ++ [KRead true]
  | AtWait => ∃ k, ks = base k ++ [KRead true; KDone]
  | AtProtoDone => ∃ k, ks = base k ++ [KRead true; KDone; KWait]
  | Returned None => ∃ k, ks = base k ++ [KRead true; KDone; KWait; KProtoDone]
  | Returned (Some _) =>
      ks = [KAdd; KSend false false] ∨
      ∃ k, ks = base k ++ [KReadErr] ∨ ks = base k ++ [KReadBad] ∨
           ks = base k ++ [KRead false; KSend true false]
  end.

(** The flags of the messages sent, and the outcomes of the reads. *)
Definition sent_kind (k : Kind) : option bool :=
  match k with KSend p true => Some p | _ => None end.
Definition read_kind (k : Kind) : option (option bool) :=
  match k with
  | KRead p => Some (Some p)
  | KReadBad => Some None
  | _ => None
  end.
Definition sentK (ks : list Kind) : list bool := omap sent_kind ks.
Definition readsK (ks : list Kind) : list (option bool) := omap read_kind ks.

Definition dec_flag (msg : Msg) : option bool :=
  match Decode msg with inr d => Some (Pong d) | inl _ => None end.

(** ** The invariant of the system *)

(** The units of [pingW] a session holds: one from its [Add] until its
    [Done]; a session that returned an error keeps its unit. *)
Definition units (pc : PC) : Z :=
  match pc with
  | AtAdd | AtWait | AtProtoDone | Returned None => 0
  | _ => 1
  end.

Fixpoint held (ss : list Session) : Z :=
  match ss with
  | [] => 0
  | se :: ss' => units (pc se) + held ss'
  end.

(** The counter is the number of units held; every history has the shape
    of its control point; a connection delivers in order what the peer
    sent, nothing else, nothing twice. *)
Record Inv (s : Sys) : Prop := {
  inv_count : pingW s = held (sessions s);
  inv_shape : ∀ j se, sessions s !! j = Some se → shape (pc se) (kind <$> hist se);
  inv_chan : ∀ j se, sessions s !! j = Some se →
               Encode 0 <$> sentM (hist_at s (peer j)) = rcvdM (hist se) ++ inbox se
}.

(** What a step of session [i] that performs [o] and moves to [pc'] does to
    session [j] and to the counter of [pingW]. *)
Definition after (i : nat) (pc' : PC) (o : Op) (j : nat) (se : Session) : Session :=
  let se1 := if decide (j = i) then advance pc' o se else se in
  match o with
  | OpSend m None => if decide (j = peer i) then push (Encode 0 m) se1 else se1
  | OpRead (inr _) => if decide (j = i) then pop se1 else se1
  | _ => se1
  end.

Definition pingW_after (o : Op) (v : Z) : Z :=
  match o with
  | OpAdd delta => default v (wg_add v delta)
  | OpDone => default v (wg_add v (-1))
  | _ => v
  end.

Global Instance PC_eq_dec : EqDecision PC.
Proof. solve_decision. Defined.

End Proto.

Module Sim.

(** ** The check of the simulation *)

Definition Error := string.
Definition Time := Z.

(** [enode.ID], a 32-byte array, as the number its bytes spell. *)
Definition ID := Z.

(** [context.Context], as far as [check] looks at it: whether the channel
    [ctx.Done()] is closed. *)
Record Context := mkContext { Done : bool }.

(** A record of the logger: level, message, and one key with its value. *)
Record LogRecord := mkLog { level : string; text : string; key : string; value : ID }.

(** [check] of [main]: it polls [ctx.Done()] without blocking and does
    nothing in either case, logs a warning, and returns [true, nil]. *)
Definition check (ctx : Context) (nid : ID) : list LogRecord * (bool * option Error) :=
  let polled := if Done ctx then tt else tt in
  ([mkLog "warn" "ok" "nid" nid], (true, None)).

(** ** The step executor *)

(** Modelled from the spec: the [Expectation] handed to [sim.Run], whose
    type is declared in the simulations package and not in this repository:
    the target nodes and the predicate.  The predicate is evaluated when a
    trigger arrives, so it takes the time of the trigger. *)
Record Expectation := mkExpectation { Nodes : list ID; Check : Time → ID → bool * option Error }.

(** Modelled from the spec: what the executor waits for (section 4.3, step
    3): a value on the trigger channel, the cancellation signal, or the
    failure of the action. *)
Inductive Occurrence :=
| Trigger (at_time : Time) (id : ID)
| Cancelled
| ActionError (err : Error).

(** Modelled from the spec: the result of a step.  [Waiting] is not a
    result of the executor: it says that the occurrences listed so far leave
    it waiting. *)
Inductive StepResult :=
| Success
| Failed (err : Error)
| TimeoutError (still_pending : gset ID)
| Waiting (still_pending : gset ID).

(** Modelled from the spec: the executor's state, the pending set, and with
    it the invocations of the predicate made so far. *)
Record State := mkState { pending : gset ID; checks : list (Time * ID) }.

(** Modelled from the spec: the executor's reaction to one occurrence
    (section 4.3, step 3), the body of [sim.Run], which is not under src. *)
Definition handle (x : Expectation) (st : State) (o : Occurrence) : State + StepResult :=
  match o with
  | Trigger t id =>
      if decide (id ∈ pending st) then
        match Check x t id with
        | (_, Some err) => inr (Failed err)
        | (true, None) => inl (mkState (pending st ∖ {[id]}) (checks st ++ [(t, id)]))
        | (false, None) => inl (mkState (pending st) (checks st ++ [(t, id)]))
        end
      else inl st
  | Cancelled => inr (TimeoutError (pending st))
  | ActionError err => inr (Failed err)
  end.

(** Modelled from the spec: the loop of [sim.Run] (section 4.3, steps 3 and
    4): the step succeeds the moment the pending set is empty. *)
Fixpoint loop (x : Expectation) (st : State) (os : list Occurrence) : StepResult :=
  if decide (pending st = ∅) then Success else
  match os with
  | [] => Waiting (pending st)
  | o :: os' =>
      match handle x st o with
      | inl st' => loop x st' os'
      | inr r => r
      end
  end.

(** Modelled from the spec: the pending set starts as a copy of the target
    set (section 4.3, step 2). *)
Definition start (x : Expectation) : State := mkState (list_to_set (Nodes x)) [].

(** Modelled from the spec: [sim.Run], the step executor of the simulations
    package, of which this repository holds only the call. *)
Definition Run (x : Expectation) (os : list Occurrence) : StepResult := loop x (start x) os.

(** The state after the occurrences [os], when none of them ends the step
    with an error or a timeout. *)
Fixpoint drive (x : Expectation) (st : State) (os : list Occurrence) : State + StepResult :=
  match os with
  | [] => inl st
  | o :: os' =>
      match handle x st o with
      | inl st' => drive x st' os'
      | inr r => inr r
      end
  end.

(** The expectation [main] builds: all the nodes, and [check]. *)
Definition canonical (ctx : Context) (nids : list ID) : Expectation :=
  mkExpectation nids (λ _ nid, snd (check ctx nid)).

End Sim.

(** * The message-exchange sample as a whole

    [main] adds one unit to [protoW] for each of its two servers and blocks
    in [protoW.Wait()]; the units are given back by [Run], one per session
    that returns nil. *)
Module Exchange.
Import Proto.

(** The sessions that have returned nil. *)
Definition done_unit (pc : PC) : Z :=
  match pc with Returned None => 1 | _ => 0 end.

Fixpoint finished (ss : list Session) : Z :=
  match ss with
  | [] => 0
  | se :: ss' => done_unit (pc se) + finished ss'
  end.

(** [protoW.Wait()] of [main] returns: the counter is at zero. *)
Definition main_released (s : Sys) : bool := protoW s =? 0.

(** The operations performed so far, over all sessions. *)
Fixpoint total_ops (ss : list Session) : nat :=
  match ss with
  | [] => O
  | se :: ss' => (length (hist se) + total_ops ss')%nat
  end.

Definition no_failure (s : Sys) : Prop :=
  ∀ j a err, sessions s !! j = Some a → pc a ≠ Returned (Some err).

Definition all_returned (s : Sys) : Prop :=
  ∀ j a, sessions s !! j = Some a → pc a = Returned None.

(** Session [i] can take a step when nothing fails. *)
Definition enabled (s : Sys) (i : nat) : Prop := is_Some (step s (ok_at i)).

Global Instance enabled_dec s i : Decision (enabled s i).
Proof. unfold enabled. apply _. Defined.

(** The counters of a system in which no wait group has panicked. *)
Record Sound (n : nat) (w : Z) (s : Sys) : Prop := {
  sound_crashed : crashed s = false;
  sound_protoW : protoW s = w - finished (sessions s);
  sound_length : length (sessions s) = n
}.

End Exchange.

(** * The event loops of the reply sample

    [main] of the reply sample subscribes to the events of its first node,
    adds one unit to [messageW] and starts a loop on that subscription; it
    then does the same for its second node, and blocks in
    [messageW.Wait()].  A loop calls [messageW.Done()] for every event of
    type msgrecv it receives and returns when its subscription ends.  The
    first loop runs while [main] is still on its way to the second
    [messageW.Add(1)]. *)
Module Reply.

Inductive Node := NodeOne | NodeTwo.

(** Where [main] stands, from its first [messageW.Add(1)] on. *)
Inductive MainPC :=
| AtAddOne    (* messageW.Add(1), first subscription *)
| AtGoOne     (* go func() { for { select ... } } (), node one *)
| AtAddTwo    (* messageW.Add(1), second subscription *)
| AtGoTwo     (* go func() { for { select ... } } (), node two *)
| AtWait      (* messageW.Wait() *)
| Past.       (* messageW.Wait() has returned *)

(** A goroutine of a subscription: not started by [main] yet, in its loop,
    or returned. *)
Inductive Loop := NotStarted | InLoop | Ended.

(** What happens next: [main] performs its next operation, the loop of a
    node receives an event of its channel, or it receives the end of its
    subscription. *)
Inductive Occ :=
| MainStep
| PeerEvent (node : Node) (type : string)
| SubErr (node : Node).

(** The number a node has in the log lines. *)
Definition number (nd : Node) : string :=
  match nd with NodeOne => "1" | NodeTwo => "2" end.

Record LogRecord := mkLog { level : string; text : string }.

(** Where [main] stands, the counter of [messageW], whether it has
    panicked, the two loops, and what was logged. *)
Record State := mkState {
  main : MainPC;
  messageW : Z;
  panicked : bool;
  loop_one : Loop;
  loop_two : Loop;
  log : list LogRecord
}.

Definition loop_of (st : State) (nd : Node) : Loop :=
  match nd with NodeOne => loop_one st | NodeTwo => loop_two st end.

Definition running (st : State) (nd : Node) : bool :=
  match loop_of st nd with InLoop => true | _ => false end.

Definition set_loop (st : State) (nd : Node) (l : Loop) : State :=
  match nd with
  | NodeOne => mkState (main st) (messageW st) (panicked st) l (loop_two st) (log st)
  | NodeTwo => mkState (main st) (messageW st) (panicked st) (loop_one st) l (log st)
  end.

Definition set_main (st : State) (pc : MainPC) : State :=
  mkState pc (messageW st) (panicked st) (loop_one st) (loop_two st) (log st).

Definition logged (st : State) (r : LogRecord) : State :=
  mkState (main st) (messageW st) (panicked st) (loop_one st) (loop_two st)
          (log st ++ [r]).

(** [messageW.Add(delta)]; [messageW.Done()] is [messageW.Add(-1)]. *)
Definition add (st : State) (delta : Z) : State :=
  match Proto.wg_add (messageW st) delta with
  | Some v => mkState (main st) v (panicked st) (loop_one st) (loop_two st) (log st)
  | None => mkState (main st) (messageW st) true (loop_one st) (loop_two st) (log st)
  end.

Definition done (st : State) : State := add st (-1).

(** The next operation of [main]; in [messageW.Wait()] it stays where it is
    until the counter is at zero. *)
Definition main_step (st : State) : State :=
  match main st with
  | AtAddOne => set_main (add st 1) AtGoOne
  | AtGoOne => set_main (set_loop st NodeOne InLoop) AtAddTwo
  | AtAddTwo => set_main (add st 1) AtGoTwo
  | AtGoTwo => set_main (set_loop st NodeTwo InLoop) AtWait
  | AtWait => if messageW st =? 0 then set_main st Past else st
  | Past => st
  end.

(** One turn of the [select] of the loop of node [nd]; a loop that is not
    running receives nothing. *)
Definition loop_step (st : State) (nd : Node) (ev : option string) : State :=
  if negb (running st nd) then st else
  match ev with
  | Some type =>
      if String.eqb type "add"
      then logged st (mkLog "debug"
                        ("Received peer add notification on node #" +:+ number nd))
      else if String.eqb type "msgrecv"
      then done (logged st (mkLog "info"
                              ("Received message nofification on node #" +:+ number nd)))
      else st
  | None => set_loop st nd Ended
  end.

(** After a panic nothing runs. *)
Definition on_occ (st : State) (o : Occ) : State :=
  if panicked st then st else
  match o with
  | MainStep => main_step st
  | PeerEvent nd type => loop_step st nd (Some type)
  | SubErr nd => loop_step st nd None
  end.

Definition run (st : State) (os : list Occ) : State := foldl on_occ st os.

(** [main] about to subscribe to the events of its first node. *)
Definition start : State := mkState AtAddOne 0 false NotStarted NotStarted [].

(** [messageW.Wait()] of [main] has returned. *)
Definition released (st : State) : bool :=
  match main st with Past => true | _ => false end.

(** The units [main] has added when it stands at a control point. *)
Definition adds (pc : MainPC) : Z :=
  match pc with
  | AtAddOne => 0
  | AtGoOne | AtAddTwo => 1
  | AtGoTwo | AtWait | Past => 2
  end.

(** The occurrence is an event of type msgrecv taken by a running loop. *)
Definition takes (st : State) (o : Occ) : bool :=
  negb (panicked st) &&
  match o with
  | PeerEvent nd type => running st nd && String.eqb type "msgrecv"
  | _ => false
  end.

(** The number of such events along a sequence of occurrences. *)
Fixpoint taken (st : State) (os : list Occ) : Z :=
  match os with
  | [] => 0
  | o :: os' => (if takes st o then 1 else 0) + taken (on_occ st o) os'
  end.

(** The invariant of the counter, [t] being the number of msgrecv events
    taken so far: without a panic the counter holds the units added less
    [t]; a panic is the one event taken beyond the units added. *)
Record Counted (st : State) (t : Z) : Prop := {
  counted_ok : panicked st = false →
               messageW st = adds (main st) - t ∧ 0 ≤ messageW st ∧
               (main st = Past → messageW st = 0);
  counted_panic : panicked st = true → t = adds (main st) + 1
}.

End Reply.

(** * The flow of the protocol-complex simulation

    What [main] of the simulation does around the step: the star of
    connections, the action handed to the step, the goroutines the action
    starts, the nodes stopped at the end, and the service constructor of
    [newServices]. *)
Module Harness.

Definition Error := string.
Definition ID := Sim.ID.

(** [time.Duration], in nanoseconds. *)
Definition Duration := Z.
Definition Millisecond : Duration := 1000000.
Definition Second : Duration := 1000000000.

Definition defaultMaxDifficulty : Z := 24.
Definition defaultMinDifficulty : Z := 8.
Definition defaultSubmitDelay : Duration := Millisecond * 100.
Definition defaultDataSize : Z := 32.
Definition defaultMaxTime : Duration := Second * 10.
Definition defaultSimDuration : Duration := Second * 5.
Definition defaultMaxJobs : Z := 100.
Definition defaultResourceApiHost : string := "http://localhost:8500".

(** ** Connecting and stopping *)

(** The loop after [n.StartAll()]: every node but the first is connected to
    [nids[0]].  [None]: the index expression [nids[0]] is out of range. *)
Fixpoint connect_from (nids0 : list ID) (i : nat) (nids : list ID) : option (list (ID * ID)) :=
  match nids with
  | [] => Some []
  | nid :: rest =>
      if (i =? 0)%nat then connect_from nids0 (S i) rest
      else
        match nids0 !! 0%nat with
        | None => None
        | Some hub => cons (hub, nid) <$> connect_from nids0 (S i) rest
        end
  end.

Definition connects (nids : list ID) : option (list (ID * ID)) := connect_from nids 0 nids.

(** The loop after the step: every node but the first is stopped. *)
Fixpoint stop_from (i : nat) (nids : list ID) : list ID :=
  match nids with
  | [] => []
  | nid :: rest =>
      if (i =? 0)%nat then stop_from (S i) rest else nid :: stop_from (S i) rest
  end.

Definition stops (nids : list ID) : list ID := stop_from 0 nids.

(** ** The action *)

(** A call [client.Call(nil, method, arg)]. *)
Record Rpc := mkRpc { rpc_node : ID; rpc_method : string; rpc_arg : Z }.

(** The goroutines the action starts: one that sends the node on the
    trigger channel at once, one that does so when its timer fires. *)
Inductive Spawned :=
| SendNow (nid : ID)
| SendAfter (timer : Duration) (nid : ID).

(** The network as the action meets it: whether [n.GetNode(nid).Client()]
    fails, and whether a call fails. *)
Record Net := mkNet {
  client_err : ID → option Error;
  call_err : Rpc → option Error
}.

(** What the action has done when it returns. *)
Record Outcome := mkOutcome {
  spawned : list Spawned;
  calls : list Rpc;
  result : option Error
}.

Definition and_then (sp : list Spawned) (cs : list Rpc) (o : Outcome) : Outcome :=
  mkOutcome (sp ++ spawned o) (cs ++ calls o) (result o).

Fixpoint action_from (net : Net) (i : nat) (nids : list ID) : Outcome :=
  match nids with
  | [] => mkOutcome [] [] None
  | nid :: rest =>
      if (i =? 0)%nat
      then and_then [SendNow nid] [] (action_from net (S i) rest)
      else
        match client_err net nid with
        | Some err => mkOutcome [] [] (Some err)
        | None =>
            let call := mkRpc nid "demo_setDifficulty" 0 in
            match call_err net call with
            | Some err => mkOutcome [] [call] (Some err)
            | None =>
                and_then [SendAfter defaultSimDuration nid] [call]
                         (action_from net (S i) rest)
            end
        end
  end.

Definition action (net : Net) (nids : list ID) : Outcome := action_from net 0 nids.

(** The call that sets a node idle. *)
Definition set_idle (nid : ID) : Rpc := mkRpc nid "demo_setDifficulty" 0.

(** The node accepts the action's call. *)
Definition reachable_node (net : Net) (nid : ID) : Prop :=
  client_err net nid = None ∧ call_err net (set_idle nid) = None.

(** The action fails on the node with [err], at the client or at the call;
    [made] is what it called there. *)
Definition fails_at (net : Net) (nid : ID) (err : Error) (made : list Rpc) : Prop :=
  (client_err net nid = Some err ∧ made = []) ∨
  (client_err net nid = None ∧ call_err net (set_idle nid) = Some err ∧
   made = [set_idle nid]).

(** ** The goroutine with the timer *)





(** ** The services *)

Record Flags := mkFlags { useResource : bool; ensAddr : string }.

(** The sink of the resource client created for a host and a name. *)
Record ResultSink := mkSink { sink_host : string; sink_name : string }.

(** The fields of [service.DemoParams] that [newServices] sets. *)
Record DemoParams := mkParams {
  MaxJobs : Z;
  MaxTimePerJob : Duration;
  MaxDifficulty : Z;
  SubmitDelay : Duration;
  SubmitDataSize : Z;
  MaxSubmitDifficulty : Z;
  MinSubmitDifficulty : Z;
  Id : list Byte.byte
}.

(** The digits of the verb [%x]. *)
Definition ldigits : string := "0123456789abcdef".

Definition hex_digit (n : N) : Ascii.ascii :=
  default Ascii.zero (String.get (N.to_nat n) ldigits).

(** [fmt.Sprintf("%x", bs)] for a byte slice: two digits per byte. *)
Fixpoint hex (bs : list Byte.byte) : string :=
  match bs with
  | [] => ""
  | b :: bs' =>
      String (hex_digit (Byte.to_N b / 16))
        (String (hex_digit (Byte.to_N b mod 16)) (hex bs'))
  end.

(** The sink handed to [service.NewDemoParams]: nil unless the flag r is
    set. *)
Definition sink_for (fl : Flags) (name : string) : option ResultSink :=
  if useResource fl then Some (mkSink defaultResourceApiHost name) else None.

Definition resourceEnsName (fl : Flags) (id : list Byte.byte) : string :=
  if String.eqb (ensAddr fl) "" then hex id +:+ ".mutable.test" else ensAddr fl.

Section Services.

(** [service.NewDemoParams], of the service package, which is not among the
    sources: the parameters it returns for a sink. *)
Variable NewDemoParams : option ResultSink → DemoParams.

(** The constructor registered under the name demo, with the flag
    [haveWorker] it closes over: the parameters handed to [service.NewDemo]
    and the flag afterwards. *)
Definition demo_service (fl : Flags) (haveWorker : bool) (id : list Byte.byte)
  : DemoParams * bool :=
  let name := resourceEnsName fl id in
  let sinkFunc :=
    if useResource fl then Some (mkSink defaultResourceApiHost name) else None in
  let params := NewDemoParams sinkFunc in
  let difficulty := if haveWorker then MaxDifficulty params else defaultMaxDifficulty in
  (mkParams defaultMaxJobs defaultMaxTime difficulty defaultSubmitDelay
     defaultDataSize defaultMaxDifficulty defaultMinDifficulty id,
   true).

(** The services built, in order, by one value of [newServices()]. *)
Fixpoint demo_services (fl : Flags) (haveWorker : bool) (ids : list (list Byte.byte))
  : list DemoParams :=
  match ids with
  | [] => []
  | id :: ids' =>
      let '(p, hw) := demo_service fl haveWorker id in
      p :: demo_services fl hw ids'
  end.

End Services.

End Harness.

(** * Properties of the protocol session *)

Module ProtoFacts.
Import Proto.

Lemma rounds_snoc k : rounds k ++ [KRead false; KSend true true] = rounds (S k).
Proof. induction k as [|k IH]; simpl; [done|]. by rewrite IH. Qed.

Lemma base_snoc k : (base k ++ [KRead false]) ++ [KSend true true] = base (S k).
Proof. unfold base. rewrite <- app_assoc. simpl. f_equal. f_equal. apply rounds_snoc. Qed.

Local Ltac list_eq := unfold base; simpl; rewrite <- ?app_assoc; simpl; done.

Lemma lstep_shape pc i pc' o ks :
  shape pc ks → lstep pc i = Some (pc', o) → shape pc' (ks ++ [kind o]).
Proof.
  intros Hs Hl. destruct pc; simpl in *.
  - simplify_eq. done.
  - subst ks. destruct (io_err i); simplify_eq; simpl; [by left|]. by exists 0%nat.
  - destruct Hs as [k ->]. destruct (io_err i); simplify_eq; simpl.
    { right. exists k. by left. }
    destruct (incoming i) as [msg|]; [|done].
    destruct (Decode msg) as [err|d] eqn:Hd; simplify_eq; simpl.
    { rewrite Hd. right. exists k. right. by left. }
    destruct (Pong d) eqn:Hp; simplify_eq; simpl; rewrite Hd, Hp; by exists k.
  - destruct Hs as [k ->]. destruct (io_err i); simplify_eq; simpl.
    { right. exists k. right. right. list_eq. }
    exists (S k). rewrite <- base_snoc. list_eq.
  - destruct Hs as [k ->]. simplify_eq. exists k. list_eq.
  - destruct Hs as [k ->]. destruct (barrier i =? 0); simplify_eq. exists k. list_eq.
  - destruct Hs as [k ->]. simplify_eq. exists k. list_eq.
  - done.
Qed.

Lemma lrun_shape ins : ∀ pc ks pc' ops,
  shape pc ks → lrun pc ins = (pc', ops) → shape pc' (ks ++ (kind <$> ops)).
Proof.
  induction ins as [|i ins IH]; intros pc ks pc' ops Hs Hr; simpl in Hr.
  - simplify_eq. by rewrite app_nil_r.
  - destruct (lstep pc i) as [[pc1 o]|] eqn:Hl; [|by eapply IH].
    destruct (lrun pc1 ins) as [pc2 ops2] eqn:Hr2. simplify_eq.
    rewrite fmap_cons, cons_middle, app_assoc.
    eapply IH; [|done]. by eapply lstep_shape.
Qed.

Lemma Run_shape ins pc' ops : Run ins = (pc', ops) → shape pc' (kind <$> ops).
Proof. intros H. by apply (lrun_shape ins AtAdd [] pc' ops). Qed.

Lemma peer_ne i : peer i ≠ i.
Proof.
  unfold peer. destruct (Nat.even i) eqn:He; [lia|].
  destruct i; [done|]. simpl. lia.
Qed.

Lemma peer_involutive i : peer (peer i) = i.
Proof.
  unfold peer. destruct (Nat.even i) eqn:He.
  - rewrite Nat.even_succ, <- Nat.negb_even, He. done.
  - destruct i as [|i]; [done|]. simpl Nat.pred.
    rewrite Nat.even_succ, <- Nat.negb_even in He.
    apply negb_false_iff in He. by rewrite He.
Qed.

Lemma lookup_alter_decide {A} (f : A → A) (i j : nat) (l : list A) :
  alter f i l !! j = (if decide (j = i) then f else id) <$> l !! j.
Proof.
  destruct (decide (j = i)) as [->|Hne].
  - apply list_lookup_alter_eq.
  - rewrite list_lookup_alter_ne by done. by destruct (l !! j).
Qed.

Lemma step_inv s e s' :
  step s e = Some s' →
  ∃ se pc' o,
    crashed s = false ∧
    sessions s !! who e = Some se ∧
    lstep (pc se) (view s se e) = Some (pc', o) ∧
    pingW s' = pingW_after o (pingW s) ∧
    (∀ j, sessions s' !! j = after (who e) pc' o j <$> sessions s !! j).
Proof.
  unfold step. intros H.
  destruct (crashed s) eqn:Hc; [done|].
  destruct (sessions s !! who e) as [se|] eqn:Hse; [|done].
  destruct (lstep (pc se) (view s se e)) as [[pc' o]|] eqn:Hl; [|done].
  simplify_eq. exists se, pc', o. split_and!; try done.
  - destruct o as [d|m [err|]|[err|msg]| | |]; simpl; try done.
    + by destruct (wg_add (pingW s) d).
    + by destruct (wg_add (pingW s) (-1)).
    + by destruct (wg_add (protoW s) (-1)).
  - intros j. unfold after.
    destruct o as [d|m [err|]|[err|msg]| | |]; simpl;
      try (by rewrite lookup_alter_decide; destruct (decide (j = who e))).
    + destruct (wg_add (pingW s) d); simpl;
        by rewrite lookup_alter_decide; destruct (decide (j = who e)).
    + rewrite !lookup_alter_decide.
      destruct (decide (j = peer (who e))), (decide (j = who e));
        by destruct (sessions s !! j).
    + rewrite !lookup_alter_decide.
      destruct (decide (j = who e)); by destruct (sessions s !! j).
    + destruct (wg_add (pingW s) (-1)); simpl;
        by rewrite lookup_alter_decide; destruct (decide (j = who e)).
    + destruct (wg_add (protoW s) (-1)); simpl;
        by rewrite lookup_alter_decide; destruct (decide (j = who e)).
Qed.

Lemma units_nonneg pc : 0 ≤ units pc.
Proof. destruct pc as [| | | | | | |[?|]]; simpl; lia. Qed.

Lemma held_nonneg ss : 0 ≤ held ss.
Proof. induction ss as [|se ss IH]; simpl; [lia|]. pose proof (units_nonneg (pc se)). lia. Qed.

Lemma held_ge ss i se : ss !! i = Some se → units (pc se) ≤ held ss.
Proof.
  revert i. induction ss as [|x ss IH]; intros [|i] H; simplify_eq/=.
  - pose proof (held_nonneg ss). lia.
  - pose proof (IH _ H). pose proof (units_nonneg (pc x)). lia.
Qed.

Lemma held_imap_same (F : nat → Session → Session) ss :
  (∀ j x, pc (F j x) = pc x) → held (imap F ss) = held ss.
Proof.
  revert F. induction ss as [|x ss IH]; intros F HF; simpl; [done|].
  rewrite HF, IH; [done|]. intros j y. apply HF.
Qed.

Lemma held_imap (F : nat → Session → Session) ss i se :
  ss !! i = Some se →
  (∀ j x, j ≠ i → pc (F j x) = pc x) →
  held (imap F ss) = held ss - units (pc se) + units (pc (F i se)).
Proof.
  revert F i. induction ss as [|x ss IH]; intros F [|i] H HF; simplify_eq/=.
  - rewrite (held_imap_same (F ∘ S)); [lia|]. intros j y. by apply HF.
  - rewrite (IH (F ∘ S) i H); [|intros j y ?; apply HF; lia].
    rewrite HF by done. simpl. lia.
Qed.

Lemma sessions_after s s' i pc' o :
  (∀ j, sessions s' !! j = after i pc' o j <$> sessions s !! j) →
  sessions s' = imap (after i pc' o) (sessions s).
Proof. intros H. apply list_eq. intros j. by rewrite H, list_lookup_imap. Qed.

Lemma pc_after_ne i pc' o j se : j ≠ i → pc (after i pc' o j se) = pc se.
Proof.
  intros Hne. unfold after.
  destruct o as [d|m [err|]|[err|msg]| | |]; simpl; repeat case_decide; by simplify_eq.
Qed.

Lemma hist_after_ne i pc' o j se : j ≠ i → hist (after i pc' o j se) = hist se.
Proof.
  intros Hne. unfold after.
  destruct o as [d|m [err|]|[err|msg]| | |]; simpl; repeat case_decide; by simplify_eq.
Qed.

Lemma pc_after_eq i pc' o se : pc (after i pc' o i se) = pc'.
Proof.
  pose proof (peer_ne i). unfold after.
  destruct o as [d|m [err|]|[err|msg]| | |]; simpl; repeat case_decide; by simplify_eq.
Qed.

Lemma hist_after_eq i pc' o se : hist (after i pc' o i se) = hist se ++ [o].
Proof.
  pose proof (peer_ne i). unfold after.
  destruct o as [d|m [err|]|[err|msg]| | |]; simpl; repeat case_decide; by simplify_eq.
Qed.

(** Case analysis on the branches [lstep] took. *)
Local Ltac lstep_cases :=
  repeat (match goal with
          | H : context [match ?x with _ => _ end] |- _ => destruct x eqn:?
          end; simplify_eq/=);
  simplify_eq/=.

Lemma lstep_units pc i pc' o v :
  lstep pc i = Some (pc', o) → units pc ≤ v →
  pingW_after o v = v - units pc + units pc'.
Proof.
  intros Hl Hv.
  destruct pc as [| | | | | | |r]; simpl in *;
    lstep_cases; try lia.
  - unfold wg_add. case_match; simpl; lia.
  - unfold wg_add. case_match; simpl; lia.
Qed.

Lemma lstep_read pc i pc' msg :
  lstep pc i = Some (pc', OpRead (inr msg)) → incoming i = Some msg.
Proof.
  intros Hl.
  destruct pc as [| | | | | | |r]; simpl in *;
    lstep_cases; done.
Qed.

Lemma Inv_init n w : Inv (init n w).
Proof.
  split.
  - simpl. induction n as [|n IH]; simpl; [done|]. by rewrite <- IH.
  - intros j se [-> _]%lookup_replicate. done.
  - intros j se [-> _]%lookup_replicate. simpl. unfold hist_at. simpl.
    destruct (replicate n idle !! peer j) as [b|] eqn:Hb; [|done].
    apply lookup_replicate in Hb as [-> _]. done.
Qed.

Lemma inbox_after i pc' o j se :
  inbox (after i pc' o j se) =
    match o with
    | OpSend m None => if decide (j = peer i) then inbox se ++ [Encode 0 m] else inbox se
    | OpRead (inr _) => if decide (j = i) then tail (inbox se) else inbox se
    | _ => inbox se
    end.
Proof.
  unfold after.
  destruct o as [d|m [err|]|[err|msg]| | |]; simpl; repeat case_decide; by simplify_eq.
Qed.

Lemma hist_at_step s s' i pc' o se k :
  sessions s !! i = Some se →
  (∀ j, sessions s' !! j = after i pc' o j <$> sessions s !! j) →
  hist_at s' k = if decide (k = i) then hist se ++ [o] else hist_at s k.
Proof.
  intros Hse H. unfold hist_at. rewrite H. case_decide as Hk.
  - subst k. rewrite Hse. simpl. apply hist_after_eq.
  - destruct (sessions s !! k) as [b|]; simpl; [|done]. by apply hist_after_ne.
Qed.

Lemma Inv_step s e s' : Inv s → step s e = Some s' → Inv s'.
Proof.
  intros [Hc Hs Hch] (se & pc' & o & Hcr & Hse & Hl & HpW & Hss)%step_inv.
  destruct e as [i t err]. simpl in *.
  pose proof (peer_ne i) as Hpi.
  split.
  - rewrite HpW, (sessions_after _ _ _ _ _ Hss).
    rewrite (held_imap _ _ i se Hse) by (intros; by apply pc_after_ne).
    rewrite pc_after_eq, <- Hc. eapply lstep_units; [done|].
    rewrite Hc. by eapply held_ge.
  - intros j se' Hj. rewrite Hss in Hj.
    destruct (sessions s !! j) as [b|] eqn:Hb; simplify_eq/=.
    destruct (decide (j = i)) as [->|Hne].
    + rewrite pc_after_eq, hist_after_eq, fmap_app. simpl. simplify_eq.
      eapply lstep_shape; [|done]. by eapply Hs.
    + rewrite pc_after_ne, hist_after_ne by done. by eapply Hs.
  - intros j se' Hj. rewrite Hss in Hj.
    destruct (sessions s !! j) as [b|] eqn:Hb; simplify_eq/=.
    rewrite (hist_at_step s s' i pc' o se _ Hse Hss), inbox_after.
    specialize (Hch j b Hb).
    destruct (decide (j = i)) as [->|Hne].
    + simplify_eq. rewrite hist_after_eq. unfold rcvdM in *. rewrite omap_app.
      destruct o as [d|m [e|]|[e|msg]| | |]; simpl;
        repeat case_decide; simplify_eq; rewrite ?app_nil_r; try done.
      apply lstep_read in Hl. simpl in Hl.
      destruct (inbox se) as [|m0 rest]; simplify_eq/=.
      by rewrite <- app_assoc.
    + rewrite hist_after_ne by done.
      destruct (decide (peer j = i)) as [Hp|Hp].
      * assert (j = peer i) as Hj by (by rewrite <- Hp, peer_involutive).
        unfold hist_at in Hch. rewrite Hp, Hse in Hch. simpl in Hch.
        unfold sentM in *. rewrite omap_app, fmap_app, Hch.
        destruct o as [d|m [e|]|[e|msg]| | |]; simpl;
          repeat case_decide; simplify_eq; rewrite ?app_nil_r; try done.
        by rewrite <- app_assoc.
      * assert (j ≠ peer i) as Hj by (intros ->; by rewrite peer_involutive in Hp).
        rewrite Hch.
        destruct o as [d|m [e|]|[e|msg]| | |]; simpl;
          repeat case_decide; simplify_eq; done.
Qed.

Lemma Inv_exec es : ∀ s s', Inv s → exec s es = Some s' → Inv s'.
Proof.
  induction es as [|e es IH]; intros s s' Hi He; simpl in He; [by simplify_eq|].
  destruct (step s e) as [s1|] eqn:Hs; [|done].
  eapply IH; [|done]. by eapply Inv_step.
Qed.

Lemma Inv_reachable n w s : reachable n w s → Inv s.
Proof. intros [es He]. eapply Inv_exec; [apply Inv_init|done]. Qed.

Lemma sentK_kind h : sentK (kind <$> h) = Pong <$> sentM h.
Proof.
  unfold sentK, sentM.
  induction h as [|o h IH]; [done|].
  destruct o as [d|m [e|]|[e|msg]| | |]; simpl in *; try done.
  - f_equal. apply IH.
  - by destruct (Decode msg).
Qed.

Lemma readsK_kind h : readsK (kind <$> h) = dec_flag <$> rcvdM h.
Proof.
  unfold readsK, rcvdM, dec_flag.
  induction h as [|o h IH]; [done|].
  destruct o as [d|m [e|]|[e|msg]| | |]; simpl in *; try done.
  destruct (Decode msg); simpl; f_equal; apply IH.
Qed.

Lemma sentK_rounds k : sentK (rounds k) = replicate k true.
Proof. unfold sentK. induction k as [|k IH]; [done|]. simpl. f_equal. apply IH. Qed.

Lemma readsK_rounds k : readsK (rounds k) = replicate k (Some false).
Proof. unfold readsK. induction k as [|k IH]; [done|]. simpl. f_equal. apply IH. Qed.

Lemma sentK_base k l : sentK (base k ++ l) = false :: replicate k true ++ sentK l.
Proof. unfold base, sentK. simpl. rewrite omap_app. f_equal. f_equal. apply sentK_rounds. Qed.

Lemma readsK_base k l : readsK (base k ++ l) = replicate k (Some false) ++ readsK l.
Proof. unfold base, readsK. simpl. rewrite omap_app. f_equal. apply readsK_rounds. Qed.

Local Ltac kinds_eq :=
  rewrite ?sentK_base, ?readsK_base; unfold sentK, readsK; simpl;
  rewrite ?app_nil_r; done.

(** What a session has sent is a ping followed by pongs, and each pong
    answers a ping read before it. *)
Lemma shape_sent pc ks :
  shape pc ks →
  sentK ks = [] ∨
  ∃ k l, sentK ks = false :: replicate k true ∧
         readsK ks = replicate k (Some false) ++ l.
Proof.
  intros Hs.
  destruct pc as [| | | | | | |[err|]]; unfold shape in Hs.
  - left. by subst.
  - left. by subst.
  - destruct Hs as [k ->]. right. exists k, [].
    rewrite <- (app_nil_r (base k)). kinds_eq.
  - destruct Hs as [k ->]. right. exists k, [Some false]. kinds_eq.
  - destruct Hs as [k ->]. right. exists k, [Some true]. kinds_eq.
  - destruct Hs as [k ->]. right. exists k, [Some true]. kinds_eq.
  - destruct Hs as [k ->]. right. exists k, [Some true]. kinds_eq.
  - destruct Hs as [->|[k [->|[->| ->]]]]; [by left|right..].
    + exists k, []. kinds_eq.
    + exists k, [None]. kinds_eq.
    + exists k, [Some false]. kinds_eq.
  - destruct Hs as [k ->]. right. exists k, [Some true]. kinds_eq.
Qed.

Lemma hist_at_shape s k :
  Inv s → ∃ pc, shape pc (kind <$> hist_at s k).
Proof.
  intros Hi. unfold hist_at.
  destruct (sessions s !! k) as [b|] eqn:Hb; simpl.
  - exists (pc b). by eapply inv_shape.
  - by exists AtAdd.
Qed.

(** What a session has read is a prefix of what its peer has sent. *)
Lemma reads_prefix s j a :
  Inv s → sessions s !! j = Some a →
  ∃ l, Some <$> sentK (kind <$> hist_at s (peer j)) = readsK (kind <$> hist a) ++ l.
Proof.
  intros Hi Ha. exists (dec_flag <$> inbox a).
  rewrite sentK_kind, readsK_kind, <- fmap_app, <- (inv_chan s Hi j a Ha).
  rewrite <- !list_fmap_compose. done.
Qed.

Lemma replicate_prefix_sent k l l' bs :
  (bs = [] ∨ ∃ n, bs = false :: replicate n true) →
  Some <$> bs = (replicate k (Some false) ++ l) ++ l' →
  (k ≤ 1)%nat.
Proof.
  intros [->|[n ->]] H.
  - destruct k; [lia|done].
  - destruct k as [|[|k]]; [lia..|]. exfalso. simpl in H.
    destruct n; simplify_eq/=.
Qed.

Lemma sent_cases s k :
  Inv s →
  sentK (kind <$> hist_at s k) = [] ∨
  ∃ n, sentK (kind <$> hist_at s k) = false :: replicate n true.
Proof.
  intros Hi. destruct (hist_at_shape s k Hi) as [pc Hs].
  destruct (shape_sent _ _ Hs) as [H|(n & l & H & _)]; [by left|right; by exists n].
Qed.

(** No session ever sends more than its ping and one pong. *)
Lemma sent_bound s j a :
  Inv s → sessions s !! j = Some a →
  sentK (kind <$> hist a) `prefix_of` [false; true].
Proof.
  intros Hi Ha.
  destruct (shape_sent _ _ (inv_shape s Hi j a Ha)) as [->|(k & l & -> & Hr)].
  { by exists [false; true]. }
  destruct (reads_prefix s j a Hi Ha) as [l' Hp]. rewrite Hr in Hp.
  apply replicate_prefix_sent in Hp; [|by apply sent_cases].
  destruct k as [|[|k]]; [by exists [true]|by exists []|lia].
Qed.

Lemma lrun_app ins1 : ∀ pc ins2,
  lrun pc (ins1 ++ ins2) =
    let '(pc1, ops1) := lrun pc ins1 in
    let '(pc2, ops2) := lrun pc1 ins2 in (pc2, ops1 ++ ops2).
Proof.
  induction ins1 as [|i ins1 IH]; intros pc ins2; simpl.
  - by destruct (lrun pc ins2).
  - destruct (lstep pc i) as [[pc' o]|]; [|apply IH].
    rewrite IH. destruct (lrun pc' ins1) as [pc1 ops1].
    by destruct (lrun pc1 ins2).
Qed.

Lemma lrun_returned r ins : lrun (Returned r) ins = (Returned r, []).
Proof. induction ins as [|i ins IH]; [done|]. simpl. apply IH. Qed.

Lemma kind_done o : kind o = KDone → o = OpDone.
Proof.
  destruct o as [d|m [e|]|[e|msg]| | |]; simpl; try done.
  by destruct (Decode msg).
Qed.

Lemma kind_read o p :
  kind o = KRead p → ∃ msg d, o = OpRead (inr msg) ∧ Decode msg = inr d ∧ Pong d = p.
Proof.
  destruct o as [d|m [e|]|[e|msg]| | |]; simpl; try done.
  destruct (Decode msg) as [e|d] eqn:Hd; [done|].
  intros [= <-]. by exists msg, d.
Qed.

Lemma exec_app es1 : ∀ s es2,
  exec s (es1 ++ es2) = exec s es1 ≫= λ s1, exec s1 es2.
Proof.
  induction es1 as [|e es1 IH]; intros s es2; simpl; [done|].
  destruct (step s e); [apply IH|done].
Qed.

Lemma held_zero ss j b : held ss = 0 → ss !! j = Some b → units (pc b) = 0.
Proof.
  intros H0 Hb. pose proof (held_ge ss j b Hb). pose proof (units_nonneg (pc b)). lia.
Qed.

Lemma step_wait_zero s e s' se :
  step s e = Some s' → sessions s !! who e = Some se → pc se = AtWait → pingW s = 0.
Proof.
  intros (se' & pc' & o & _ & Hse & Hl & _)%step_inv Hse' Hpc. simplify_eq.
  rewrite Hpc in Hl. simpl in Hl. destruct (pingW s =? 0) eqn:Hz; [lia|done].
Qed.

Lemma step_blocked_wait s e se :
  sessions s !! who e = Some se → pc se = AtWait → pingW s ≠ 0 → step s e = None.
Proof.
  intros Hse Hpc Hz. destruct (step s e) as [s'|] eqn:Hs; [|done].
  exfalso. apply Hz. by eapply step_wait_zero.
Qed.

Lemma step_returned s e se r :
  sessions s !! who e = Some se → pc se = Returned r → step s e = None.
Proof.
  intros Hse Hpc. unfold step. destruct (crashed s); [done|]. by rewrite Hse, Hpc.
Qed.

Lemma lstep_to_exit pc i pc' o :
  lstep pc i = Some (pc', o) →
  pc' = AtProtoDone ∨ pc' = Returned None →
  pc = AtWait ∨ pc = AtProtoDone.
Proof.
  intros Hl Hpc'.
  destruct pc as [| | | | | | |r]; simpl in *; auto;
    lstep_cases; destruct Hpc'; done.
Qed.

Lemma exec_passes_wait es : ∀ s0 s i a,
  exec s0 es = Some s → sessions s !! i = Some a → pc a = Returned None →
  before_exit s0 i →
  ∃ es1 e es2 s1 a1,
    es = es1 ++ e :: es2 ∧ who e = i ∧ exec s0 es1 = Some s1 ∧
    sessions s1 !! i = Some a1 ∧ pc a1 = AtWait ∧ pingW s1 = 0.
Proof.
  induction es as [|e es IH]; intros s0 s i a He Ha Hpc Hb; simpl in He.
  - simplify_eq. destruct (Hb a Ha) as [_ ?]. done.
  - destruct (step s0 e) as [s1|] eqn:Hs; [|done].
    pose proof Hs as (se & pc' & o & _ & Hse & Hl & _ & Hss)%step_inv.
    assert (before_exit s1 i ∨ (who e = i ∧ pc se = AtWait)) as [Hb1|[Hw Hse']].
    { destruct (decide (who e = i)) as [Hw|Hw].
      - subst i. destruct (decide (pc se = AtWait)) as [|Hnw]; [by right|left].
        intros a1 Ha1. rewrite Hss, Hse in Ha1. simplify_eq/=.
        rewrite pc_after_eq. destruct (Hb se Hse) as [Hb1 Hb2].
        split; intros Hp.
        + destruct (lstep_to_exit _ _ _ _ Hl (or_introl Hp)); done.
        + destruct (lstep_to_exit _ _ _ _ Hl (or_intror Hp)); done.
      - left. intros a1 Ha1. rewrite Hss in Ha1.
        destruct (sessions s0 !! i) as [a0|] eqn:Ha0; simplify_eq/=.
        rewrite pc_after_ne by done. by apply Hb. }
    + destruct (IH s1 s i a He Ha Hpc Hb1) as (es1 & e' & es2 & s2 & a2 & -> & ? & He1 & ? & ? & ?).
      exists (e :: es1), e', es2, s2, a2. split_and!; try done.
      simpl. by rewrite Hs.
    + subst i. exists [], e, es, s0, se. split_and!; try done.
      by eapply step_wait_zero.
Qed.

Lemma elem_of_rounds x k : x ∈ rounds k → x = KRead false ∨ x = KSend true true.
Proof.
  induction k as [|k IH]; simpl; [by intros ?%elem_of_nil|].
  rewrite !elem_of_cons. intros [?|[?|?]]; auto.
Qed.

Lemma elem_of_base x k :
  x ∈ base k → x = KAdd ∨ x = KSend false true ∨ x = KRead false ∨ x = KSend true true.
Proof.
  unfold base. rewrite !elem_of_cons.
  intros [?|[?|[?|?]%elem_of_rounds]]; auto.
Qed.

Lemma kinds_acknowledged h : KRead true ∈ kind <$> h → acknowledged h.
Proof.
  intros (o & Ho & Hin)%list_elem_of_fmap. symmetry in Ho.
  apply kind_read in Ho as (msg & d & -> & ? & ?). by exists msg, d.
Qed.

Local Ltac in_list :=
  repeat first [rewrite elem_of_app | rewrite elem_of_cons | rewrite elem_of_nil];
  intuition congruence.

Local Ltac not_in_list H :=
  repeat first [rewrite elem_of_app in H | rewrite elem_of_cons in H
               | rewrite elem_of_nil in H];
  repeat match goal with
         | H' : _ ∈ base _ |- _ => apply elem_of_base in H'
         | H' : _ ∨ _ |- _ => destruct H'
         end; done.

Lemma shape_ponged pc ks :
  shape pc ks → ponged pc = true →
  KRead true ∈ ks ∧ (units pc = 0 → KDone ∈ ks).
Proof.
  intros Hs Hp.
  destruct pc as [| | | | | | |[err|]]; try done; unfold shape in Hs;
    destruct Hs as [k ->]; (split; [in_list|]); simpl; try done;
    intros _; in_list.
Qed.

Lemma shape_done pc ks : shape pc ks → KDone ∈ ks → ponged pc = true.
Proof.
  intros Hs Hd.
  destruct pc as [| | | | | | |[err|]]; try done; unfold shape in Hs; exfalso.
  - subst. not_in_list Hd.
  - subst. not_in_list Hd.
  - destruct Hs as [k ->]. not_in_list Hd.
  - destruct Hs as [k ->]. not_in_list Hd.
  - destruct Hs as [->|[k [->|[->| ->]]]]; not_in_list Hd.
Qed.

Lemma reachable_exec n w s es s' : reachable n w s → exec s es = Some s' → reachable n w s'.
Proof. intros [es0 H0] He. exists (es0 ++ es). by rewrite exec_app, H0. Qed.

Lemma exec_returned es : ∀ s s' i a r,
  exec s es = Some s' → sessions s !! i = Some a → pc a = Returned r →
  ∃ a', sessions s' !! i = Some a' ∧ pc a' = Returned r ∧ hist a' = hist a.
Proof.
  induction es as [|e es IH]; intros s s' i a r He Ha Hpc; simpl in He.
  - simplify_eq. by exists a.
  - destruct (step s e) as [s1|] eqn:Hs; [|done].
    pose proof Hs as (se & pc' & o & _ & Hse & Hl & _ & Hss)%step_inv.
    destruct (decide (who e = i)) as [<-|Hne].
    { by rewrite (step_returned s e a r) in Hs. }
    destruct (IH s1 s' i (after (who e) pc' o i a) r He) as (a' & ? & ? & Hh).
    + by rewrite Hss, Ha.
    + by rewrite pc_after_ne.
    + exists a'. split_and!; try done. by rewrite Hh, hist_after_ne.
Qed.

Lemma joined_blocks_wait s j b e a :
  Inv s → sessions s !! j = Some b → units (pc b) = 1 →
  sessions s !! who e = Some a → pc a = AtWait → step s e = None.
Proof.
  intros Hi Hb Hu Ha Hpc. eapply step_blocked_wait; [done..|].
  rewrite (inv_count s Hi). pose proof (held_ge _ _ _ Hb). lia.
Qed.

Lemma completed_hist s j a :
  Inv s → sessions s !! j = Some a → pc a = Returned None →
  kind <$> hist a = base 1 ++ [KRead true; KDone; KWait; KProtoDone] ∧
  sentK (kind <$> hist_at s (peer j)) = [false; true].
Proof.
  intros Hi Ha Hpc.
  pose proof (inv_shape s Hi j a Ha) as Hs. rewrite Hpc in Hs.
  destruct Hs as [k Hk].
  destruct (reads_prefix s j a Hi Ha) as [l Hl].
  rewrite Hk, readsK_base in Hl.
  change (readsK [KRead true; KDone; KWait; KProtoDone]) with [Some true] in Hl.
  destruct (sent_cases s (peer j) Hi) as [H0|[m Hm]].
  { rewrite H0 in Hl. by destruct k. }
  rewrite Hm in Hl.
  assert (k = 1%nat ∧ (1 ≤ m)%nat) as [-> Hm1].
  { destruct k as [|[|k]]; simplify_eq/=. destruct m; simplify_eq/=.
    - split; [done|lia].
    - destruct m; simplify_eq/=. }
  split; [done|].
  destruct (sessions s !! peer j) as [b|] eqn:Hb.
  - pose proof (sent_bound s (peer j) b Hi Hb) as [l' Hl'].
    unfold hist_at in Hm. rewrite Hb in Hm. simpl in Hm.
    rewrite Hm in Hl'. unfold hist_at. rewrite Hb. simpl. rewrite Hm.
    destruct m as [|[|m]]; [lia|done|]. simplify_eq/=.
  - unfold hist_at in Hm. rewrite Hb in Hm. done.
Qed.

Lemma lstep_not_entry pc i pc' o : lstep pc i = Some (pc', o) → pc' ≠ AtAdd.
Proof.
  intros Hl.
  destruct pc as [| | | | | | |r]; simpl in *;
    lstep_cases; done.
Qed.

Lemma lstep_read_fails i failure :
  read_fails i failure →
  ∃ r, lstep AtRead i = Some (Returned (Some failure), OpRead r).
Proof.
  intros [(err & He & ->)|(msg & err & He & Hm & Hd & ->)]; simpl; rewrite He.
  - by exists (inl err).
  - rewrite Hm, Hd. by exists (inr msg).
Qed.

Lemma lrun_cons pc i ins pc' o :
  lstep pc i = Some (pc', o) →
  lrun pc (i :: ins) = (fst (lrun pc' ins), o :: snd (lrun pc' ins)).
Proof. intros Hl. simpl. rewrite Hl. by destruct (lrun pc' ins). Qed.

Lemma lrun_ponged ins : ∀ pc,
  ponged pc = true → Forall (λ o, is_send o = false) (snd (lrun pc ins)).
Proof.
  induction ins as [|i ins IH]; intros pc Hp; simpl; [done|].
  destruct (lstep pc i) as [[pc' o]|] eqn:Hl; [|by apply IH].
  specialize (IH pc'). destruct (lrun pc' ins) as [pc'' ops]. simpl in *.
  destruct pc as [| | | | | | |[err|]]; simpl in *; try done;
    repeat case_match; simplify_eq/=; (constructor; [done|by apply IH]).
Qed.

Lemma length_base k : length (base k) = (2 * k + 2)%nat.
Proof. unfold base. simpl. induction k as [|k IH]; simpl; lia. Qed.

Lemma shape_length pc ks :
  shape pc ks → (length ks ≤ 2 * length (sentK ks) + 4)%nat.
Proof.
  intros Hs.
  destruct pc as [| | | | | | |[err|]]; unfold shape in Hs;
    repeat match goal with
           | H : ∃ _, _ |- _ => destruct H
           | H : _ ∨ _ |- _ => destruct H
           end; subst;
    try match goal with
        | |- context [sentK (base ?k ++ _)] => idtac
        | |- context [sentK (base ?k)] => rewrite <- (app_nil_r (base k))
        end;
    rewrite ?sentK_base, ?length_app, ?length_base; simpl;
    rewrite ?length_app, ?length_replicate; simpl; lia.
Qed.

Lemma step_protoW s e s' : step s e = Some s' → protoW s' ≤ protoW s.
Proof.
  unfold step. destruct (crashed s); [done|].
  destruct (sessions s !! who e) as [se|]; [|done].
  destruct (lstep (pc se) (view s se e)) as [[pc' o]|]; [|done].
  intros [= <-].
  destruct o as [d|m [err|]|[err|msg]| | |]; simpl; try lia.
  - destruct (wg_add (pingW s) d); simpl; lia.
  - destruct (wg_add (pingW s) (-1)); simpl; lia.
  - unfold wg_add. case_match; simpl; lia.
Qed.

Lemma lrun_pings k msg d :
  Decode msg = inr d → Pong d = false →
  ∃ ops, lrun AtRead (concat (replicate k [arrives msg; quiet])) = (AtRead, ops) ∧
         kind <$> ops = rounds k.
Proof.
  intros Hd Hp. induction k as [|k (ops & Hr & Hk)]; [by exists []|].
  exists (OpRead (inr msg) :: OpSend (mkFooPingMsg true 0) None :: ops).
  cbn [replicate concat app].
  rewrite (lrun_cons AtRead (arrives msg) _ AtSendPong (OpRead (inr msg)))
    by (simpl; by rewrite Hd, Hp).
  rewrite (lrun_cons AtSendPong quiet _ AtRead (OpSend (mkFooPingMsg true 0) None))
    by done.
  rewrite Hr. split; [done|].
  rewrite !fmap_cons, Hk. cbn [kind]. by rewrite Hd, Hp.
Qed.

(** ** The claims about the protocol session *)

(** C3.  When [Run] returns nil, the last message it read decodes to a
    pong, and nothing but [pingW.Done], [pingW.Wait] and [protoW.Done]
    follows that read.  As long as every message that arrives is a ping, the
    session never gets past the loop, whatever else happens; and a session
    that has read and acknowledged [k] pings, for any [k], stands at the head
    of the loop again. *)
Theorem Run_returns_only_after_pong :
  (∀ ins ops, Run ins = (Returned None, ops) →
     ∃ pre msg d, ops = pre ++ [OpRead (inr msg); OpDone; OpWait; OpProtoDone] ∧
                  Decode msg = inr d ∧ Pong d = true) ∧
  (∀ ins, Forall is_ping_in ins → ponged (fst (Run ins)) = false) ∧
  (∀ k msg d, Decode msg = inr d → Pong d = false →
     ∃ ops, Run (quiet :: quiet :: concat (replicate k [arrives msg; quiet]))
              = (AtRead, ops) ∧
            kind <$> ops = base k).
Proof.
  split_and!.
  - intros ins ops Hr. apply Run_shape in Hr as [k Hk]. unfold shape in Hk.
    apply fmap_app_inv in Hk as (pre & post & _ & Hpost & ->).
    destruct post as [|o1 [|o2 [|o3 [|o4 [|]]]]]; simplify_eq/=.
    match goal with H : KRead true = kind _ |- _ => symmetry in H;
      apply kind_read in H as (msg & d & -> & Hd & Hp) end.
    repeat match goal with H : _ = kind _ |- _ => symmetry in H end.
    exists pre, msg, d. split_and!; try done.
    repeat f_equal.
    + by apply kind_done.
    + destruct o3 as [?|? [?|]|[?|m3]| | |]; simplify_eq/=; try done.
      by destruct (Decode m3).
    + destruct o4 as [?|? [?|]|[?|m4]| | |]; simplify_eq/=; try done.
      by destruct (Decode m4).
  - intros ins. unfold Run. assert (ponged AtAdd = false) as H0 by done. revert H0.
    generalize AtAdd. induction ins as [|i ins IH]; intros pc Hpc Hall; [done|].
    apply Forall_cons in Hall as [Hi Hall]. simpl.
    destruct (lstep pc i) as [[pc' o]|] eqn:Hl; [|by apply IH].
    specialize (IH pc'). destruct (lrun pc' ins) as [pc'' ops]. simpl in *.
    apply IH; [|done]. clear IH.
    destruct pc as [| | | | | | |r]; simpl in *; try done;
      lstep_cases; try done.
    exfalso. unfold is_ping_in in Hi.
    match goal with H : incoming i = Some ?m, H' : Decode _ = inr ?d |- _ =>
      specialize (Hi m d H H') end. congruence.
  - intros k msg d Hd Hp.
    destruct (lrun_pings k msg d Hd Hp) as (ops & Hr & Hk).
    exists (OpAdd 1 :: OpSend (mkFooPingMsg false 0) None :: ops).
    unfold Run.
    rewrite (lrun_cons AtAdd quiet _ AtSendPing (OpAdd 1)) by done.
    rewrite (lrun_cons AtSendPing quiet _ AtRead (OpSend (mkFooPingMsg false 0) None))
      by done.
    rewrite Hr. split; [done|]. rewrite !fmap_cons, Hk. done.
Qed.

Lemma Run_returns_only_after_pong_witness :
  let ping := Encode 0 (mkFooPingMsg false 0) in
  let pong := Encode 0 (mkFooPingMsg true 0) in
  let full := [quiet; quiet; arrives ping; quiet; arrives pong; quiet; quiet; quiet] in
  let pings := [quiet; quiet; arrives ping; quiet; arrives ping; quiet] in
  (Run full = (Returned None, snd (Run full)) ∧
   ∃ pre msg d, snd (Run full) = pre ++ [OpRead (inr msg); OpDone; OpWait; OpProtoDone] ∧
                Decode msg = inr d ∧ Pong d = true) ∧
  (Forall is_ping_in pings ∧ ponged (fst (Run pings)) = false) ∧
  (Decode ping = inr (mkFooPingMsg false 0) ∧
   ∃ ops, Run (quiet :: quiet :: concat (replicate 3 [arrives ping; quiet]))
            = (AtRead, ops) ∧
          kind <$> ops = base 3).
Proof.
  intros ping pong full pings.
  destruct Run_returns_only_after_pong as (H1 & H2 & H3).
  assert (Forall is_ping_in pings) as Hp.
  { repeat first [apply Forall_nil_2 | apply Forall_cons_2];
      intros m d Hm Hd; simpl in Hm; simplify_eq; compute in Hd; by simplify_eq. }
  split_and!.
  - reflexivity.
  - apply (H1 full). reflexivity.
  - exact Hp.
  - apply (H2 pings Hp).
  - reflexivity.
  - apply (H3 3%nat ping (mkFooPingMsg false 0)); reflexivity.
Defined.

(** C6 as stated fails: in the sample itself session 0 has begun its run
    and holds the counter at 1 when session 1 enters [Run] and raises it to
    2. *)
Lemma barrier_rises_after_run_begun :
  ∃ s e s' a,
    reachable 2 2 s ∧ sessions s !! 0%nat = Some a ∧ pc a ≠ AtAdd ∧
    step s e = Some s' ∧ pingW s = 1 ∧ pingW s' = 2.
Proof.
  exists (mkSys 1 2 false [mkSession AtSendPing [] [OpAdd 1]; idle]), (ok_at 1),
         (mkSys 2 2 false [mkSession AtSendPing [] [OpAdd 1];
                           mkSession AtSendPing [] [OpAdd 1]]),
         (mkSession AtSendPing [] [OpAdd 1]).
  split_and!; try done. by exists [ok_at 0].
Qed.

(** C6, as amended.  A step raises [pingW] only when the session that
    takes it stands at the entry of [Run], and then by one; a session is
    never at its entry again after a step, so it raises the counter once.
    Every other step leaves [pingW] as it is or, at [pingW.Done()], lowers it
    by one.  No step of a session raises [protoW]. *)
Theorem barrier_rises_only_at_entry
    (n : nat) (w : Z) (s : Sys) (e : Event) (s' : Sys) (a : Session) :
  reachable n w s → step s e = Some s' → sessions s !! who e = Some a →
  ((pc a = AtAdd ∧ pingW s' = pingW s + 1) ∨
   (pc a = AtDone ∧ pingW s' = pingW s - 1) ∨
   (pc a ≠ AtAdd ∧ pc a ≠ AtDone ∧ pingW s' = pingW s)) ∧
  (∀ a', sessions s' !! who e = Some a' → pc a' ≠ AtAdd) ∧
  protoW s' ≤ protoW s.
Proof.
  intros Hr Hs Ha. pose proof (Inv_reachable _ _ _ Hr) as Hi.
  pose proof Hs as (se & pc' & o & _ & Hse & Hl & HpW & Hss)%step_inv.
  assert (se = a) as -> by congruence. clear Hse. split_and!.
  - pose proof (held_ge _ _ _ Ha) as Hge. rewrite <- (inv_count s Hi) in Hge.
    rewrite HpW, (lstep_units _ _ _ _ _ Hl Hge).
    destruct (pc a) as [| | | | | | |r]; simpl in *;
      lstep_cases;
      first [left; split; [done|lia] | right; left; split; [done|lia]
            | right; right; split_and!; [done|done|lia] ].
  - intros a' Ha'. rewrite Hss, Ha in Ha'. simplify_eq/=.
    rewrite pc_after_eq. by eapply lstep_not_entry.
  - by eapply step_protoW.
Qed.

Lemma barrier_rises_only_at_entry_witness :
  let s := mkSys 1 2 false [mkSession AtSendPing [] [OpAdd 1]; idle] in
  let s' := mkSys 2 2 false [mkSession AtSendPing [] [OpAdd 1];
                             mkSession AtSendPing [] [OpAdd 1]] in
  reachable 2 2 s ∧ step s (ok_at 1) = Some s' ∧
  sessions s !! who (ok_at 1) = Some idle ∧
  ((pc idle = AtAdd ∧ pingW s' = pingW s + 1) ∨
   (pc idle = AtDone ∧ pingW s' = pingW s - 1) ∨
   (pc idle ≠ AtAdd ∧ pc idle ≠ AtDone ∧ pingW s' = pingW s)) ∧
  (∀ a', sessions s' !! who (ok_at 1) = Some a' → pc a' ≠ AtAdd) ∧
  protoW s' ≤ protoW s.
Proof.
  intros s s'.
  assert (reachable 2 2 s) as Hr by (exists [ok_at 0]; reflexivity).
  split; [exact Hr|]. split; [reflexivity|]. split; [reflexivity|].
  exact (barrier_rises_only_at_entry 2 2 s (ok_at 1) s' idle Hr eq_refl eq_refl).
Defined.

(** C7.  A session at the head of the loop whose [ReadMsg] fails, or whose
    message fails to decode, returns at once the error built from that
    failure (Receive p2p message fail, Decode p2p message fail): the failed
    read is its last operation whatever arrives afterwards.  In the system
    the step leaves every other session and both counters as they were, and
    the session takes no further step. *)
Theorem read_failure_is_fatal_to_its_session :
  (∀ ins1 i ins2 ops1 failure,
     Run ins1 = (AtRead, ops1) → read_fails i failure →
     ∃ r, Run (ins1 ++ i :: ins2) = (Returned (Some failure), ops1 ++ [OpRead r])) ∧
  (∀ s e se failure,
     crashed s = false → sessions s !! who e = Some se → pc se = AtRead →
     read_fails (view s se e) failure →
     ∃ s' se',
       step s e = Some s' ∧
       sessions s' !! who e = Some se' ∧ pc se' = Returned (Some failure) ∧
       (∀ j, j ≠ who e → sessions s' !! j = sessions s !! j) ∧
       pingW s' = pingW s ∧ protoW s' = protoW s ∧ crashed s' = false ∧
       (∀ e', who e' = who e → step s' e' = None)).
Proof.
  split.
  - intros ins1 i ins2 ops1 failure Hrun Hf.
    destruct (lstep_read_fails i failure Hf) as [r Hl]. exists r.
    unfold Run in *. rewrite lrun_app, Hrun, (lrun_cons _ _ _ _ _ Hl).
    by rewrite lrun_returned.
  - intros s e se failure Hc Hse Hpc Hf.
    destruct (lstep_read_fails _ failure Hf) as [r Hl].
    unfold step. rewrite Hc, Hse, Hpc, Hl.
    set (ss := alter (advance (Returned (Some failure)) (OpRead r)) (who e) (sessions s)).
    assert (ss !! who e = Some (advance (Returned (Some failure)) (OpRead r) se)) as Hss.
    { unfold ss. by rewrite list_lookup_alter_eq, Hse. }
    assert (∀ s' se',
              sessions s' !! who e = Some se' → pc se' = Returned (Some failure) →
              ∀ e', who e' = who e → step s' e' = None) as Hstuck.
    { intros s' se' H1 H2 e' He'. eapply step_returned; [|done]. by rewrite He'. }
    destruct r as [err|msg]; simpl.
    + eexists _, _. split_and!; try done.
      * intros j Hj. simpl. unfold ss. by rewrite list_lookup_alter_ne.
      * by eapply Hstuck.
    + eexists _, (pop (advance (Returned (Some failure)) (OpRead (inr msg)) se)).
      assert (alter pop (who e) ss !! who e =
                Some (pop (advance (Returned (Some failure)) (OpRead (inr msg)) se))) as Hp.
      { by rewrite list_lookup_alter_eq, Hss. }
      split_and!; try done.
      * intros j Hj. simpl. unfold ss. by rewrite !list_lookup_alter_ne.
      * by eapply Hstuck.
Qed.

Lemma read_failure_is_fatal_to_its_session_witness :
  let eof := mkInput 0 (Some "EOF") None 0 in
  let bad := arrives (mkMsg 0 (inl "rlp: expected List")) in
  let s := mkSys 1 2 false
             [mkSession AtRead [] [OpAdd 1; OpSend (mkFooPingMsg false 0) None]; idle] in
  (read_fails eof "Receive p2p message fail: EOF" ∧
   ∃ r, Run ([quiet; quiet] ++ eof :: [quiet])
          = (Returned (Some "Receive p2p message fail: EOF"),
             [OpAdd 1; OpSend (mkFooPingMsg false 0) None] ++ [OpRead r])) ∧
  (read_fails bad "Decode p2p message fail: rlp: expected List" ∧
   ∃ r, Run ([quiet; quiet] ++ bad :: [arrives (Encode 0 (mkFooPingMsg true 0))])
          = (Returned (Some "Decode p2p message fail: rlp: expected List"),
             [OpAdd 1; OpSend (mkFooPingMsg false 0) None] ++ [OpRead r])) ∧
  (∃ s' se',
     step s (fail_at 0 "EOF") = Some s' ∧
     sessions s' !! 0%nat = Some se' ∧
     pc se' = Returned (Some "Receive p2p message fail: EOF") ∧
     (∀ j, j ≠ 0%nat → sessions s' !! j = sessions s !! j) ∧
     pingW s' = pingW s ∧ protoW s' = protoW s ∧ crashed s' = false ∧
     (∀ e', who e' = 0%nat → step s' e' = None)).
Proof.
  intros eof bad s.
  destruct read_failure_is_fatal_to_its_session as [H1 H2].
  assert (read_fails eof "Receive p2p message fail: EOF") as Hf1.
  { left. by exists "EOF". }
  assert (read_fails bad "Decode p2p message fail: rlp: expected List") as Hf2.
  { right. by exists (mkMsg 0 (inl "rlp: expected List")), "rlp: expected List". }
  split_and!.
  - exact Hf1.
  - apply (H1 [quiet; quiet] eof [quiet] _ _ eq_refl Hf1).
  - exact Hf2.
  - apply (H1 [quiet; quiet] bad _ _ _ eq_refl Hf2).
  - apply (H2 s (fail_at 0 "EOF")
             (mkSession AtRead [] [OpAdd 1; OpSend (mkFooPingMsg false 0) None])
             "Receive p2p message fail: EOF"); try reflexivity.
    left. by exists "EOF".
Defined.

(** C9.  A message that decodes to a pong takes the session from the head
    of the loop to [pingW.Done()] with no send; from there on, whatever
    arrives, the session sends nothing.  In every state the system reaches,
    a session has put at most two messages on its connection and performed
    at most eight operations: the exchange between two sessions is
    bounded. *)
Theorem pong_is_never_answered :
  (∀ i msg d,
     io_err i = None → incoming i = Some msg → Decode msg = inr d → Pong d = true →
     lstep AtRead i = Some (AtDone, OpRead (inr msg))) ∧
  (∀ ins, Forall (λ o, is_send o = false) (snd (lrun AtDone ins))) ∧
  (∀ n w s j a,
     reachable n w s → sessions s !! j = Some a →
     (length (sentM (hist a)) ≤ 2)%nat ∧ (length (hist a) ≤ 8)%nat).
Proof.
  split_and!.
  - intros i msg d He Hm Hd Hp. simpl. by rewrite He, Hm, Hd, Hp.
  - intros ins. by apply lrun_ponged.
  - intros n w s j a Hr Ha. pose proof (Inv_reachable _ _ _ Hr) as Hi.
    pose proof (sent_bound s j a Hi Ha) as Hb.
    apply prefix_length in Hb. simpl in Hb.
    pose proof (shape_length _ _ (inv_shape s Hi j a Ha)) as Hl.
    rewrite length_fmap in Hl. rewrite sentK_kind, length_fmap in Hb, Hl.
    split; lia.
Qed.

Lemma pong_is_never_answered_witness :
  let pong := Encode 0 (mkFooPingMsg true 0) in
  lstep AtRead (arrives pong) = Some (AtDone, OpRead (inr pong)) ∧
  Forall (λ o, is_send o = false) (snd (lrun AtDone [arrives pong; arrives pong; quiet])) ∧
  (∃ s a, exec demo happy = Some s ∧ sessions s !! 1%nat = Some a ∧
          (length (sentM (hist a)) ≤ 2)%nat ∧ (length (hist a) ≤ 8)%nat).
Proof.
  intros pong. destruct pong_is_never_answered as (H1 & H2 & H3). split_and!.
  - apply (H1 (arrives pong) pong (mkFooPingMsg true 0)); reflexivity.
  - apply H2.
  - destruct (exec demo happy) as [s|] eqn:He; [|vm_compute in He; discriminate He].
    destruct (sessions s !! 1%nat) as [a|] eqn:Ha;
      [|vm_compute in He; injection He as <-; discriminate Ha].
    exists s, a. split; [reflexivity|]. split; [exact Ha|].
    apply (H3 2%nat 2 s 1%nat a); [by exists happy|exact Ha].
Defined.

(** C10.  A session that has returned an error has not called
    [pingW.Done()]; in any session the call follows the read of a pong.  From
    then on the counter of [pingW] stays at one or more, and no session that
    stands at [pingW.Wait()] can ever take a step. *)
Theorem error_return_keeps_barrier
    (n : nat) (w : Z) (s : Sys) (i : nat) (a : Session) (err : Error) :
  reachable n w s → sessions s !! i = Some a → pc a = Returned (Some err) →
  (OpDone ∉ hist a) ∧
  (∀ j b, sessions s !! j = Some b → OpDone ∈ hist b → acknowledged (hist b)) ∧
  (∀ es s', exec s es = Some s' →
     1 ≤ pingW s' ∧
     ∀ e b, sessions s' !! who e = Some b → pc b = AtWait → step s' e = None).
Proof.
  intros Hr Ha Hpc. pose proof (Inv_reachable _ _ _ Hr) as Hi. split_and!.
  - intros Hd. pose proof (inv_shape s Hi i a Ha) as Hs.
    assert (KDone ∈ kind <$> hist a) as Hk.
    { apply list_elem_of_fmap. by exists OpDone. }
    apply (shape_done _ _ Hs) in Hk. by rewrite Hpc in Hk.
  - intros j b Hb Hd. pose proof (inv_shape s Hi j b Hb) as Hs.
    assert (KDone ∈ kind <$> hist b) as Hk.
    { apply list_elem_of_fmap. by exists OpDone. }
    apply (shape_done _ _ Hs) in Hk.
    apply kinds_acknowledged. by apply (shape_ponged _ _ Hs).
  - intros es s' He.
    destruct (exec_returned es s s' i a _ He Ha Hpc) as (a' & Ha' & Hpc' & _).
    assert (Inv s') as Hi' by (eapply Inv_reachable, reachable_exec; done).
    assert (units (pc a') = 1) as Hu by (by rewrite Hpc').
    split.
    + rewrite (inv_count s' Hi'). pose proof (held_ge _ _ _ Ha'). lia.
    + intros e b Hb Hw. by eapply (joined_blocks_wait s' i a').
Qed.

(** Session 1 has its pong and waits at the barrier; the read of session 0
    fails. *)
Lemma error_return_keeps_barrier_witness :
  let es := [ok_at 0; ok_at 0; ok_at 1; ok_at 1; ok_at 1; ok_at 1;
             ok_at 0; ok_at 0; ok_at 1; ok_at 1; fail_at 0 "EOF"] in
  ∃ s a, exec demo es = Some s ∧ sessions s !! 0%nat = Some a ∧
         pc a = Returned (Some "Receive p2p message fail: EOF") ∧
         (OpDone ∉ hist a) ∧
         (∀ j b, sessions s !! j = Some b → OpDone ∈ hist b → acknowledged (hist b)) ∧
         (∀ es' s', exec s es' = Some s' →
            1 ≤ pingW s' ∧
            ∀ e b, sessions s' !! who e = Some b → pc b = AtWait → step s' e = None).
Proof.
  intros es.
  destruct (exec demo es) as [s|] eqn:He; [|vm_compute in He; discriminate He].
  destruct (sessions s !! 0%nat) as [a|] eqn:Ha;
    [|vm_compute in He; injection He as <-; discriminate Ha].
  assert (pc a = Returned (Some "Receive p2p message fail: EOF")) as Hpc.
  { vm_compute in He. injection He as <-. injection Ha as <-. reflexivity. }
  exists s, a. split; [reflexivity|]. split; [exact Ha|]. split; [exact Hpc|].
  apply (error_return_keeps_barrier 2 2 s 0%nat a "Receive p2p message fail: EOF");
    [by exists es|exact Ha|exact Hpc].
Defined.

End ProtoFacts.

(** * Properties of the simulation step *)

Module SimFacts.
Import Sim.

Lemma handle_pending x st o st' :
  handle x st o = inl st' → pending st' ⊆ pending st.
Proof.
  destruct o as [t id| |err]; simpl; [|done..].
  case_decide; [|by intros [= <-]].
  destruct (Check x t id) as [[|] [err|]]; intros [= <-]; simpl; try done.
  intros y [Hy _]%elem_of_difference. done.
Qed.

Lemma drive_pending x os : ∀ st st',
  drive x st os = inl st' → pending st' ⊆ pending st.
Proof.
  induction os as [|o os IH]; intros st st' H; simpl in H; [by simplify_eq|].
  destruct (handle x st o) as [st1|r] eqn:Hh; [|done].
  apply handle_pending in Hh. apply IH in H. by etrans.
Qed.

Lemma handle_result x st o r :
  handle x st o = inr r →
  (o = Cancelled ∧ r = TimeoutError (pending st)) ∨ ∃ err, r = Failed err.
Proof.
  destruct o as [t id| |err]; simpl.
  - case_decide; [|done].
    destruct (Check x t id) as [[|] [err|]]; intros [= <-]; right; by eexists.
  - intros [= <-]. by left.
  - intros [= <-]. right. by eexists.
Qed.

Lemma loop_success x os : ∀ st,
  loop x st os = Success ↔
  ∃ pre post st', os = pre ++ post ∧ drive x st pre = inl st' ∧ pending st' = ∅.
Proof.
  induction os as [|o os IH]; intros st; simpl.
  - case_decide as He.
    + split; [|done]. intros _. by exists [], [], st.
    + split; [done|]. intros (pre & post & st' & Hos & Hd & Hp).
      symmetry in Hos. apply app_eq_nil in Hos as [-> ->]. simpl in Hd. by simplify_eq.
  - case_decide as He.
    + split; [|done]. intros _. by exists [], (o :: os), st.
    + destruct (handle x st o) as [st1|r] eqn:Hh.
      * rewrite IH. split.
        -- intros (pre & post & st' & -> & Hd & Hp).
           exists (o :: pre), post, st'. split_and!; try done. simpl. by rewrite Hh.
        -- intros (pre & post & st' & Hos & Hd & Hp).
           destruct pre as [|o' pre]; simpl in *; [by simplify_eq|].
           simplify_eq. rewrite Hh in Hd. by exists pre, post, st'.
      * split.
        -- intros ->. apply handle_result in Hh as [[_ ?]|[err ?]]; done.
        -- intros (pre & post & st' & Hos & Hd & Hp).
           destruct pre as [|o' pre]; simpl in *; [by simplify_eq|].
           simplify_eq. by rewrite Hh in Hd.
Qed.

Lemma loop_timeout x os p : ∀ st,
  loop x st os = TimeoutError p ↔
  ∃ pre post st', os = pre ++ Cancelled :: post ∧ drive x st pre = inl st' ∧
                  pending st' = p ∧ p ≠ ∅.
Proof.
  induction os as [|o os IH]; intros st; simpl.
  - split; [by case_decide|]. intros (pre & post & st' & Hos & _). by destruct pre.
  - case_decide as He.
    + split; [done|]. intros (pre & post & st' & Hos & Hd & Hp & Hne).
      apply drive_pending in Hd. subst p. exfalso. apply Hne.
      apply elem_of_equiv_empty_L. intros y Hy%Hd. rewrite He in Hy.
      by apply not_elem_of_empty in Hy.
    + destruct (handle x st o) as [st1|r] eqn:Hh.
      * rewrite IH. split.
        -- intros (pre & post & st' & -> & Hd & Hp & Hne).
           exists (o :: pre), post, st'. split_and!; try done. simpl. by rewrite Hh.
        -- intros (pre & post & st' & Hos & Hd & Hp & Hne).
           destruct pre as [|o' pre]; simpl in *; simplify_eq.
           rewrite Hh in Hd. by exists pre, post, st'.
      * split.
        -- intros ->. apply handle_result in Hh as [[-> [= ->]]|[err ?]]; [|done].
           by exists [], os, st.
        -- intros (pre & post & st' & Hos & Hd & Hp & Hne).
           destruct pre as [|o' pre]; simpl in *; simplify_eq.
           ++ simpl in Hh. by simplify_eq.
           ++ by rewrite Hh in Hd.
Qed.

Lemma loop_failed x os err : ∀ st,
  loop x st os = Failed err ↔
  ∃ pre o post st', os = pre ++ o :: post ∧ drive x st pre = inl st' ∧
                    pending st' ≠ ∅ ∧ handle x st' o = inr (Failed err).
Proof.
  induction os as [|o os IH]; intros st; simpl.
  - split; [by case_decide|]. intros (pre & o & post & st' & Hos & _). by destruct pre.
  - case_decide as He.
    + split; [done|]. intros (pre & o' & post & st' & Hos & Hd & Hne & _).
      apply drive_pending in Hd. exfalso. apply Hne.
      apply elem_of_equiv_empty_L. intros y Hy%Hd. rewrite He in Hy.
      by apply not_elem_of_empty in Hy.
    + destruct (handle x st o) as [st1|r] eqn:Hh.
      * rewrite IH. split.
        -- intros (pre & o' & post & st' & -> & Hd & Hp & Hf).
           exists (o :: pre), o', post, st'. split_and!; try done. simpl. by rewrite Hh.
        -- intros (pre & o' & post & st' & Hos & Hd & Hp & Hf).
           destruct pre as [|o'' pre]; simpl in *; simplify_eq; [congruence|].
           rewrite Hh in Hd. by exists pre, o', post, st'.
      * split.
        -- intros ->. by exists [], o, os, st.
        -- intros (pre & o' & post & st' & Hos & Hd & Hne & Hf).
           destruct pre as [|o'' pre]; simpl in *; simplify_eq.
           ++ congruence.
           ++ by rewrite Hh in Hd.
Qed.

Lemma loop_waiting x os p : ∀ st, loop x st os = Waiting p → Cancelled ∉ os.
Proof.
  induction os as [|o os IH]; intros st; simpl.
  - intros _. apply not_elem_of_nil.
  - case_decide; [done|].
    destruct (handle x st o) as [st1|r] eqn:Hh.
    + intros Hl%IH. apply not_elem_of_cons. split; [|done].
      intros <-. done.
    + intros ->. apply handle_result in Hh as [[_ ?]|[err ?]]; done.
Qed.

Lemma drive_app x pre : ∀ st os,
  drive x st (pre ++ os) =
    match drive x st pre with
    | inl st' => drive x st' os
    | inr r => inr r
    end.
Proof.
  induction pre as [|o pre IH]; intros st os; simpl; [done|].
  destruct (handle x st o); [apply IH|done].
Qed.

Lemma loop_empty x st os : pending st = ∅ → loop x st os = Success.
Proof. intros He. destruct os; simpl; by rewrite decide_True. Qed.

Lemma loop_drive x pre : ∀ st st' os,
  drive x st pre = inl st' → loop x st (pre ++ os) = loop x st' os.
Proof.
  induction pre as [|o pre IH]; intros st st' os Hd; simpl in *; [by simplify_eq|].
  destruct (handle x st o) as [st1|r] eqn:Hh; [|done].
  case_decide as He; [|by apply IH].
  symmetry. apply loop_empty. apply elem_of_equiv_empty_L. intros y Hy.
  apply (drive_pending _ _ _ _ Hd), (handle_pending _ _ _ _ Hh) in Hy.
  rewrite He in Hy. by apply not_elem_of_empty in Hy.
Qed.

Lemma handle_failed x st o err :
  handle x st o = inr (Failed err) ↔
  o = ActionError err ∨
  ∃ t id b, o = Trigger t id ∧ id ∈ pending st ∧ Check x t id = (b, Some err).
Proof.
  destruct o as [t id| |e]; simpl.
  - case_decide as Hin.
    + destruct (Check x t id) as [b [e|]] eqn:Hc.
      * assert ((if b then inr (Failed e) else inr (Failed e))
                = (inr (Failed e) : State + StepResult)) as Hb by (by destruct b).
        split.
        -- destruct b; intros [= <-]; right; by eexists t, id, _.
        -- intros [?|(t' & id' & b' & [= <- <-] & _ & Hc')]; [done|].
           rewrite Hc in Hc'. simplify_eq. by destruct b'.
      * split; [by destruct b|].
        intros [?|(t' & id' & b' & [= <- <-] & _ & Hc')]; [done|].
        rewrite Hc in Hc'. by simplify_eq.
    + split; [done|]. intros [?|(t' & id' & b' & [= <- <-] & ? & _)]; done.
  - split; [done|]. intros [?|(t' & id' & b' & ? & _)]; done.
  - split; [intros [= ->]; by left|]. intros [[= ->]|(t' & id' & b' & ? & _)]; done.
Qed.

(** ** The claims about the simulation step *)

(** C1 as stated fails: the predicate reports an error for the only target
    node, the deadline fires afterwards, the pending set never becomes empty,
    and the result is that error, neither success nor a timeout. *)
Lemma Run_check_error_is_not_timeout :
  let x := mkExpectation [1] (λ _ _, (false, Some "check failed")) in
  let os := [Trigger 0 1; Cancelled] in
  Run x os = Failed "check failed" ∧
  Run x os ≠ Success ∧ (∀ p, Run x os ≠ TimeoutError p) ∧
  (∀ pre post st, os = pre ++ post → drive x (start x) pre = inl st →
                  pending st ≠ ∅).
Proof.
  split_and!; [reflexivity|discriminate|intros p; discriminate|].
  intros pre post st Hos Hd He.
  destruct pre as [|o1 [|o2 [|o3 pre]]]; simplify_eq/=.
Qed.

(** C1, as amended.  [Run] returns success exactly when, after some prefix
    of the occurrences that holds no cancellation and raises no error, the
    pending set is empty.  It returns a timeout error exactly when the
    cancellation comes while the pending set is not empty, no error having
    come before it, and the error carries the pending set of that moment.  It
    returns another error exactly when, before the pending set is empty and
    before any cancellation, the action fails or the predicate, invoked for
    a pending node, reports an error; that error is the result.  If a
    cancellation is among the occurrences the step does not stay waiting. *)
Theorem Run_outcome (x : Expectation) (os : list Occurrence) :
  (Run x os = Success ↔
     ∃ pre post st, os = pre ++ post ∧ drive x (start x) pre = inl st ∧
                    pending st = ∅) ∧
  (∀ p, Run x os = TimeoutError p ↔
     ∃ pre post st, os = pre ++ Cancelled :: post ∧
                    drive x (start x) pre = inl st ∧ pending st = p ∧ p ≠ ∅) ∧
  (∀ err, Run x os = Failed err ↔
     ∃ pre o post st, os = pre ++ o :: post ∧
                      drive x (start x) pre = inl st ∧ pending st ≠ ∅ ∧
                      (o = ActionError err ∨
                       ∃ t id b, o = Trigger t id ∧ id ∈ pending st ∧
                                 Check x t id = (b, Some err))) ∧
  (∀ p, Run x os = Waiting p → Cancelled ∉ os).
Proof.
  unfold Run. split_and!.
  - apply loop_success.
  - intros p. apply loop_timeout.
  - intros err. rewrite loop_failed.
    split; intros (pre & o & post & st & ? & ? & ? & H); exists pre, o, post, st;
      split_and!; try done; by apply handle_failed.
  - intros p. apply loop_waiting.
Qed.

(** The flow of [main] on three nodes: all triggers arrive and the step
    succeeds; the deadline fires with node 3 outstanding and the timeout
    names node 3. *)
Lemma Run_outcome_witness :
  let x := canonical (mkContext false) [1; 2; 3] in
  Run x [Trigger 0 1; Trigger 5 2; Trigger 5 3; Cancelled] = Success ∧
  Run x [Trigger 0 1; Trigger 5 2; Trigger 6 2; Cancelled; Trigger 7 3]
    = TimeoutError {[3]}.
Proof.
  intros x. split.
  - apply (Run_outcome x [Trigger 0 1; Trigger 5 2; Trigger 5 3; Cancelled]).
    exists [Trigger 0 1; Trigger 5 2; Trigger 5 3], [Cancelled],
           (mkState ∅ [(0, 1); (5, 2); (5, 3)]).
    split; [reflexivity|]. split; [vm_compute; reflexivity|reflexivity].
  - apply (Run_outcome x [Trigger 0 1; Trigger 5 2; Trigger 6 2; Cancelled; Trigger 7 3]).
    exists [Trigger 0 1; Trigger 5 2; Trigger 6 2], [Trigger 7 3],
           (mkState {[3]} [(0, 1); (5, 2)]).
    split; [reflexivity|]. split; [vm_compute; reflexivity|].
    split; [reflexivity|]. intros H. vm_compute in H. discriminate H.
Defined.

(** C2.  For every context and every node identifier, [check] returns
    [true] and no error. *)
Theorem check_reports_true (ctx : Context) (nid : ID) :
  snd (check ctx nid) = (true, None).
Proof. unfold check. destruct (Done ctx); reflexivity. Qed.

(** C8.  A trigger for a node that is not pending leaves the executor's
    state as it was: the pending set is unchanged, the predicate is not
    invoked (the record of its invocations is unchanged), and no error
    results; the step ends as it would have ended without that trigger. *)
Theorem stale_trigger_is_ignored
    (x : Expectation) (pre post : list Occurrence) (st : State) (t : Time) (id : ID) :
  drive x (start x) pre = inl st → id ∉ pending st →
  handle x st (Trigger t id) = inl st ∧
  drive x (start x) (pre ++ [Trigger t id]) = inl st ∧
  Run x (pre ++ Trigger t id :: post) = Run x (pre ++ post).
Proof.
  intros Hd Hn.
  assert (handle x st (Trigger t id) = inl st) as Hh.
  { simpl. by rewrite decide_False. }
  split_and!; [done| |].
  - rewrite drive_app, Hd. cbn [drive]. by rewrite Hh.
  - unfold Run. rewrite !(loop_drive _ _ _ _ _ Hd).
    cbn [loop]. rewrite Hh. case_decide as He; [by rewrite loop_empty|done].
Qed.

(** Node 1 has passed; a second trigger for it arrives, and the predicate
    would now report an error for it. *)
Lemma stale_trigger_is_ignored_witness :
  let x := mkExpectation [1; 2]
             (λ t id, (true, if decide (t = 5) then None else Some "unhealthy")) in
  let pre := [Trigger 5 1] in
  let st := mkState {[2]} [(5, 1)] in
  drive x (start x) pre = inl st ∧ (1 ∉ pending st) ∧
  handle x st (Trigger 6 1) = inl st ∧
  drive x (start x) (pre ++ [Trigger 6 1]) = inl st ∧
  Run x (pre ++ Trigger 6 1 :: [Cancelled]) = Run x (pre ++ [Cancelled]).
Proof.
  intros x pre st.
  assert (drive x (start x) pre = inl st) as Hd by (vm_compute; reflexivity).
  assert (1 ∉ pending st) as Hn by (vm_compute; intros H; inversion H).
  split; [exact Hd|]. split; [exact Hn|].
  exact (stale_trigger_is_ignored x pre [Cancelled] st 6 1 Hd Hn).
Defined.

End SimFacts.

(** * Properties of the samples as a whole *)

Module ExchangeFacts.
Import Proto ProtoFacts Exchange.

Local Ltac lstep_cases :=
  repeat (match goal with
          | H : context [match ?x with _ => _ end] |- _ => destruct x eqn:?
          end; simplify_eq/=);
  simplify_eq/=.

Lemma step_full s e s' :
  step s e = Some s' →
  ∃ se pc' o,
    crashed s = false ∧ sessions s !! who e = Some se ∧
    lstep (pc se) (view s se e) = Some (pc', o) ∧
    s' = apply_op (who e) o
           (set_sessions s (alter (advance pc' o) (who e) (sessions s))).
Proof.
  unfold step. intros H.
  destruct (crashed s) eqn:Hc; [done|].
  destruct (sessions s !! who e) as [se|] eqn:Hse; [|done].
  destruct (lstep (pc se) (view s se e)) as [[pc' o]|] eqn:Hl; [|done].
  simplify_eq. by exists se, pc', o.
Qed.

Lemma done_unit_bounds pc : 0 ≤ done_unit pc ≤ 1.
Proof. destruct pc as [| | | | | | |[?|]]; simpl; lia. Qed.

Lemma finished_le ss : 0 ≤ finished ss ≤ Z.of_nat (length ss).
Proof.
  induction ss as [|se ss IH]; simpl; [lia|].
  pose proof (done_unit_bounds (pc se)). lia.
Qed.

Lemma finished_lt ss i se :
  ss !! i = Some se → finished ss + 1 - done_unit (pc se) ≤ Z.of_nat (length ss).
Proof.
  revert i. induction ss as [|x ss IH]; intros [|i] H; simplify_eq/=.
  - pose proof (finished_le ss). lia.
  - pose proof (IH _ H). pose proof (done_unit_bounds (pc x)). lia.
Qed.

Lemma finished_imap_same (F : nat → Session → Session) ss :
  (∀ j x, pc (F j x) = pc x) → finished (imap F ss) = finished ss.
Proof.
  revert F. induction ss as [|x ss IH]; intros F HF; simpl; [done|].
  rewrite HF, IH; [done|]. intros j y. apply HF.
Qed.

Lemma finished_imap (F : nat → Session → Session) ss i se :
  ss !! i = Some se →
  (∀ j x, j ≠ i → pc (F j x) = pc x) →
  finished (imap F ss) = finished ss - done_unit (pc se) + done_unit (pc (F i se)).
Proof.
  revert F i. induction ss as [|x ss IH]; intros F [|i] H HF; simplify_eq/=.
  - rewrite (finished_imap_same (F ∘ S)); [lia|]. intros j y. by apply HF.
  - rewrite (IH (F ∘ S) i H); [|intros j y ?; apply HF; lia].
    rewrite HF by done. simpl. lia.
Qed.

Lemma Sound_init n w : Sound n w (init n w).
Proof.
  split; simpl.
  - done.
  - induction n as [|n IH]; simpl in *; lia.
  - apply length_replicate.
Qed.

Lemma step_counters s e s' se pc' o :
  step s e = Some s' → sessions s !! who e = Some se →
  lstep (pc se) (view s se e) = Some (pc', o) →
  units (pc se) ≤ pingW s → 0 ≤ pingW s →
  done_unit pc' - done_unit (pc se) ≤ protoW s →
  crashed s' = false ∧ protoW s' = protoW s - (done_unit pc' - done_unit (pc se)).
Proof.
  intros (se' & pc'' & o' & Hc & Hse' & Hl' & ->)%step_full Hse Hl Hu Hnn Hp.
  assert (se' = se) as -> by congruence. rewrite Hl in Hl'. simplify_eq.
  destruct (pc se) as [| | | | | | |r] eqn:Hpc; simpl in Hl; lstep_cases;
    simpl in *; unfold wg_add; repeat case_match; simpl in *; lia || (split; [done|lia]).
Qed.

Lemma Sound_step n w s e s' :
  Z.of_nat n ≤ w → Inv s → Sound n w s → step s e = Some s' → Sound n w s'.
Proof.
  intros Hw Hi [Hc Hp Hlen] Hs.
  pose proof Hs as (se & pc' & o & _ & Hse & Hl & _ & Hss)%step_inv.
  apply sessions_after in Hss.
  pose proof (finished_imap (after (who e) pc' o) _ _ _ Hse
                (λ j x Hj, pc_after_ne _ _ _ _ _ Hj)) as Hf.
  rewrite <- Hss, pc_after_eq in Hf.
  pose proof (held_ge _ _ _ Hse) as Hge. rewrite <- (inv_count s Hi) in Hge.
  pose proof (held_nonneg (sessions s)) as Hnn. rewrite <- (inv_count s Hi) in Hnn.
  pose proof (finished_lt _ _ _ Hse) as Hlt.
  pose proof (done_unit_bounds pc') as Hb.
  destruct (step_counters s e s' se pc' o Hs Hse Hl Hge Hnn) as [Hc' Hp']; [lia|].
  split; [done|lia|]. by rewrite Hss, length_imap.
Qed.

Lemma Sound_exec n w es : ∀ s s',
  Z.of_nat n ≤ w → Inv s → Sound n w s → exec s es = Some s' → Sound n w s'.
Proof.
  induction es as [|e es IH]; intros s s' Hw Hi Hsd He; simpl in He; [by simplify_eq|].
  destruct (step s e) as [s1|] eqn:Hs; [|done].
  eapply IH; [done| | |done]; [by eapply Inv_step|by eapply Sound_step].
Qed.

Lemma finished_all ss :
  finished ss = Z.of_nat (length ss) ↔ ∀ j a, ss !! j = Some a → pc a = Returned None.
Proof.
  induction ss as [|x ss IH]; simpl.
  - split; [intros _ j a H; done|done].
  - pose proof (done_unit_bounds (pc x)). pose proof (finished_le ss). split.
    + intros Hf j a Hj.
      assert (done_unit (pc x) = 1 ∧ finished ss = Z.of_nat (length ss)) as [H1 H2] by lia.
      destruct j as [|j]; simplify_eq/=.
      * destruct (pc a) as [| | | | | | |[?|]]; done.
      * by eapply IH.
    + intros Hall.
      assert (pc x = Returned None) as Hx by (by apply (Hall 0%nat)).
      assert (finished ss = Z.of_nat (length ss)) as Hss.
      { apply IH. intros j a Hj. by apply (Hall (S j)). }
      rewrite Hx. simpl. lia.
Qed.

Lemma total_ops_imap_same (F : nat → Session → Session) ss :
  (∀ j x, hist (F j x) = hist x) → total_ops (imap F ss) = total_ops ss.
Proof.
  revert F. induction ss as [|x ss IH]; intros F HF; simpl; [done|].
  rewrite HF, IH; [done|]. intros j y. apply HF.
Qed.

Lemma total_ops_imap (F : nat → Session → Session) ss i se o :
  ss !! i = Some se →
  (∀ j x, j ≠ i → hist (F j x) = hist x) → hist (F i se) = hist se ++ [o] →
  total_ops (imap F ss) = S (total_ops ss).
Proof.
  revert F i. induction ss as [|x ss IH]; intros F [|i] H HF Hi; simplify_eq/=.
  - rewrite (total_ops_imap_same (F ∘ S)) by (intros j y; by apply HF).
    rewrite Hi, length_app. simpl. lia.
  - rewrite (IH (F ∘ S) i H); [|intros j y ?; apply HF; lia|done].
    rewrite HF by done. lia.
Qed.

Lemma exec_total es : ∀ s s',
  exec s es = Some s' →
  total_ops (sessions s') = (total_ops (sessions s) + length es)%nat.
Proof.
  induction es as [|e es IH]; intros s s' He; simpl in He.
  - simplify_eq. simpl. lia.
  - destruct (step s e) as [s1|] eqn:Hs; [|done].
    rewrite (IH _ _ He).
    apply step_inv in Hs as (se & pc' & o & _ & Hse & _ & _ & Hss).
    apply sessions_after in Hss. rewrite Hss.
    rewrite (total_ops_imap _ _ _ se o Hse).
    + simpl. lia.
    + intros j x Hj. by apply hist_after_ne.
    + apply hist_after_eq.
Qed.

Lemma hist_bound s j a :
  Inv s → sessions s !! j = Some a → (length (hist a) ≤ 8)%nat.
Proof.
  intros Hi Ha.
  pose proof (sent_bound s j a Hi Ha) as Hb.
  apply prefix_length in Hb. simpl in Hb.
  pose proof (shape_length _ _ (inv_shape s Hi j a Ha)) as Hl.
  rewrite length_fmap in Hl. lia.
Qed.

Lemma total_ops_bound ss :
  (∀ j a, ss !! j = Some a → (length (hist a) ≤ 8)%nat) →
  (total_ops ss ≤ 8 * length ss)%nat.
Proof.
  induction ss as [|x ss IH]; intros H; simpl; [lia|].
  pose proof (H 0%nat x eq_refl).
  assert (total_ops ss ≤ 8 * length ss)%nat.
  { apply IH. intros j a Hj. by apply (H (S j)). }
  lia.
Qed.

Lemma total_ops_init n : total_ops (replicate n idle) = 0%nat.
Proof. induction n as [|n IH]; [done|]. simpl. apply IH. Qed.

Lemma exec_length es : ∀ s s',
  exec s es = Some s' → length (sessions s') = length (sessions s).
Proof.
  induction es as [|e es IH]; intros s s' He; simpl in He; [by simplify_eq|].
  destruct (step s e) as [s1|] eqn:Hs; [|done].
  rewrite (IH _ _ He).
  apply step_inv in Hs as (se & pc' & o & _ & _ & _ & _ & Hss).
  apply sessions_after in Hss. by rewrite Hss, length_imap.
Qed.

Lemma executions_are_bounded_aux n w es s :
  exec (init n w) es = Some s →
  (total_ops (sessions s) = length es ∧ total_ops (sessions s) ≤ 8 * n)%nat.
Proof.
  intros He.
  assert (Inv s) as Hi by (eapply Inv_reachable; by exists es).
  pose proof (exec_total _ _ _ He) as Ht.
  pose proof (exec_length _ _ _ He) as Hl.
  simpl in Ht, Hl. rewrite total_ops_init in Ht. rewrite length_replicate in Hl.
  pose proof (total_ops_bound (sessions s) (λ j a, hist_bound s j a Hi)). lia.
Qed.

Lemma reads_exact s j a :
  Inv s → sessions s !! j = Some a →
  Some <$> sentK (kind <$> hist_at s (peer j))
    = readsK (kind <$> hist a) ++ (dec_flag <$> inbox a).
Proof.
  intros Hi Ha.
  rewrite sentK_kind, readsK_kind, <- fmap_app, <- (inv_chan s Hi j a Ha).
  rewrite <- !list_fmap_compose. done.
Qed.

Lemma shape_past_loop pc ks :
  shape pc ks → ponged pc = true →
  ∃ k, sentK ks = false :: replicate k true ∧
       readsK ks = replicate k (Some false) ++ [Some true].
Proof.
  intros Hs Hp.
  destruct pc as [| | | | | | |[err|]]; try done; unfold shape in Hs;
    destruct Hs as [k ->]; exists k;
    rewrite sentK_base, readsK_base; unfold sentK, readsK; simpl;
    by rewrite app_nil_r.
Qed.

(** A session that has read its pong has sent its ping and one pong. *)
Lemma ponged_sent s j b :
  Inv s → sessions s !! j = Some b → ponged (pc b) = true →
  sentK (kind <$> hist b) = [false; true].
Proof.
  intros Hi Hb Hp.
  destruct (shape_past_loop _ _ (inv_shape s Hi j b Hb) Hp) as (k & Hs & Hr).
  pose proof (reads_exact s j b Hi Hb) as He. rewrite Hr in He.
  destruct (sent_cases s (peer j) Hi) as [H0|[m Hm]].
  { rewrite H0 in He. by destruct k. }
  rewrite Hm in He. rewrite Hs.
  destruct k as [|[|k]]; simplify_eq/=; [done|].
  destruct m; simplify_eq/=.
Qed.

Lemma replicate_cons_eq {A} (x y : A) k m :
  x ≠ y → x :: replicate k y = replicate m x → k = 0%nat ∧ m = 1%nat.
Proof.
  intros Hne H. destruct m as [|m]; simplify_eq/=.
  destruct k, m; simplify_eq/=; done.
Qed.

Lemma stuck_read_flags s j a b k :
  Inv s → sessions s !! j = Some a → sessions s !! peer j = Some b →
  kind <$> hist a = base k → inbox a = [] →
  Some <$> sentK (kind <$> hist b) = replicate k (Some false).
Proof.
  intros Hi Ha Hb Hk Hia.
  pose proof (reads_exact s j a Hi Ha) as Hra.
  unfold hist_at in Hra. rewrite Hb in Hra. cbn [from_option] in Hra.
  rewrite Hra, Hia, Hk, fmap_nil, app_nil_r.
  rewrite <- (app_nil_r (base k)), readsK_base. apply app_nil_r.
Qed.

(** Two sessions at the two ends of a connection are never both stuck at
    the read with nothing to read, nor is one stuck there when the other has
    its pong. *)
Lemma read_not_stuck s j a b :
  Inv s → sessions s !! j = Some a → sessions s !! peer j = Some b →
  pc a = AtRead → inbox a = [] →
  (pc b = AtRead ∧ inbox b = []) ∨ ponged (pc b) = true → False.
Proof.
  intros Hi Ha Hb Hpa Hia Hcase.
  pose proof (inv_shape s Hi j a Ha) as Hsa. rewrite Hpa in Hsa.
  destruct Hsa as [ka Hka].
  pose proof (stuck_read_flags s j a b ka Hi Ha Hb Hka Hia) as Hra.
  destruct Hcase as [[Hpb Hib]|Hp].
  - pose proof (inv_shape s Hi _ b Hb) as Hsb. rewrite Hpb in Hsb.
    destruct Hsb as [kb Hkb].
    assert (sessions s !! peer (peer j) = Some a) as Ha'
      by (by rewrite peer_involutive).
    pose proof (stuck_read_flags s (peer j) b a kb Hi Hb Ha' Hkb Hib) as Hrb.
    rewrite Hkb in Hra. rewrite Hka in Hrb.
    rewrite <- (app_nil_r (base kb)), sentK_base in Hra.
    rewrite <- (app_nil_r (base ka)), sentK_base in Hrb.
    change (sentK []) with (@nil bool) in *.
    rewrite app_nil_r, fmap_cons, fmap_replicate in Hra, Hrb.
    apply replicate_cons_eq in Hra as [? ?]; [|done].
    apply replicate_cons_eq in Hrb as [? ?]; [|done]. lia.
  - rewrite (ponged_sent s (peer j) b Hi Hb Hp) in Hra.
    destruct ka as [|[|[|ka]]]; simplify_eq/=.
Qed.

Lemma blocked_cases s i a :
  crashed s = false → sessions s !! i = Some a → ¬ enabled s i →
  (pc a = AtRead ∧ inbox a = []) ∨ (pc a = AtWait ∧ pingW s ≠ 0) ∨
  ∃ r, pc a = Returned r.
Proof.
  intros Hc Ha Hne. unfold enabled, step in Hne. rewrite Hc in Hne.
  simpl in Hne. rewrite Ha in Hne.
  destruct (pc a) as [| | | | | | |r] eqn:Hpc; simpl in Hne;
    try (exfalso; apply Hne; by eexists).
  - left. split; [done|]. destruct (inbox a) as [|msg rest]; [done|].
    exfalso. apply Hne. simpl. by repeat case_match.
  - right. left. split; [done|]. intros Hz. apply Hne. rewrite Hz. by eexists.
  - right. right. by exists r.
Qed.

Lemma peer_lt n j : Nat.even n = true → (j < n)%nat → (peer j < n)%nat.
Proof.
  intros Hn Hj. unfold peer. destruct (Nat.even j) eqn:He; [|lia].
  apply Nat.even_spec in Hn as [k ->]. apply Nat.even_spec in He as [m ->]. lia.
Qed.

Lemma held_zero_all ss :
  (∀ j a, ss !! j = Some a → units (pc a) = 0) → held ss = 0.
Proof.
  induction ss as [|x ss IH]; intros H; simpl; [done|].
  rewrite (H 0%nat x eq_refl), IH; [done|]. intros j a Hj. by apply (H (S j)).
Qed.

Lemma progress (n : nat) (w : Z) (s : Sys) :
  Nat.even n = true → Z.of_nat n ≤ w → reachable n w s → no_failure s →
  all_returned s ∨ ∃ i, (i < n)%nat ∧ enabled s i.
Proof.
  intros Hn Hw Hr Hnf.
  pose proof (Inv_reachable _ _ _ Hr) as Hi.
  destruct Hr as [es He].
  pose proof (Sound_exec n w es _ _ Hw (Inv_init n w) (Sound_init n w) He)
    as [Hc _ Hlen].
  destruct (decide (Exists (enabled s) (seq 0 n))) as [Hex|Hall].
  { right. apply Exists_exists in Hex as (i & Hin & Hen).
    exists i. split; [|done]. apply elem_of_seq in Hin. lia. }
  left. apply not_Exists_Forall in Hall; [|intros i; apply _].
  assert (∀ j a, sessions s !! j = Some a → ¬ enabled s j) as Hblocked.
  { intros j a Ha. rewrite Forall_forall in Hall. apply Hall.
    apply elem_of_seq. apply lookup_lt_Some in Ha. lia. }
  assert (∀ j a, sessions s !! j = Some a → pc a ≠ AtRead) as Hnoread.
  { intros j a Ha Hpa.
    destruct (blocked_cases s j a Hc Ha (Hblocked j a Ha))
      as [[_ Hia]|[[Hw' _]|[r Hr']]]; [|congruence..].
    assert (peer j < n)%nat as Hpj.
    { apply peer_lt; [done|]. apply lookup_lt_Some in Ha. lia. }
    rewrite <- Hlen in Hpj. apply lookup_lt_is_Some in Hpj as [b Hb].
    apply (read_not_stuck s j a b Hi Ha Hb Hpa Hia).
    destruct (blocked_cases s _ b Hc Hb (Hblocked _ b Hb))
      as [?|[[-> _]|[[e|] Hr']]]; [by left|by right| |right; by rewrite Hr'].
    exfalso. by eapply Hnf. }
  assert (∀ j a, sessions s !! j = Some a → units (pc a) = 0) as Hunits.
  { intros j a Ha.
    destruct (blocked_cases s j a Hc Ha (Hblocked j a Ha))
      as [[Hpa _]|[[Hpw _]|[[e|] Hr']]].
    - exfalso. by eapply Hnoread.
    - by rewrite Hpw.
    - exfalso. by eapply Hnf.
    - by rewrite Hr'. }
  intros j a Ha.
  destruct (blocked_cases s j a Hc Ha (Hblocked j a Ha))
    as [[Hpa _]|[[_ Hz]|[[e|] Hr']]]; [| | |done].
  - exfalso. by eapply Hnoread.
  - exfalso. apply Hz. rewrite (inv_count s Hi). by apply held_zero_all.
  - exfalso. by eapply Hnf.
Qed.

Lemma inbox_decodes s j a msg :
  Inv s → sessions s !! j = Some a → msg ∈ inbox a → ∃ m, msg = Encode 0 m.
Proof.
  intros Hi Ha Hin.
  assert (msg ∈ Encode 0 <$> sentM (hist_at s (peer j))) as Hm.
  { rewrite (inv_chan s Hi j a Ha). apply elem_of_app. by right. }
  apply list_elem_of_fmap in Hm as (m & -> & _). by exists m.
Qed.

Lemma ok_step_no_failure s i s' :
  Inv s → no_failure s → step s (ok_at i) = Some s' → no_failure s'.
Proof.
  intros Hi Hnf Hs j a err Ha Hpc.
  apply step_inv in Hs as (se & pc' & o & _ & Hse & Hl & _ & Hss).
  simpl in *. rewrite Hss in Ha.
  destruct (sessions s !! j) as [b|] eqn:Hb; simplify_eq/=.
  destruct (decide (j = i)) as [->|Hne].
  - rewrite pc_after_eq in Hpc. simplify_eq.
    destruct (pc se) as [| | | | | | |r] eqn:Hp; simpl in Hl; lstep_cases.
    match goal with H : head (inbox se) = Some ?m |- _ =>
      destruct (inbox_decodes s i se m Hi Hse) as [m' ->] end.
    + destruct (inbox se); simplify_eq/=. apply elem_of_cons. by left.
    + done.
  - rewrite pc_after_ne in Hpc by done. by eapply Hnf.
Qed.

Lemma completes_within (n : nat) (w : Z) (m : nat) : ∀ s,
  Nat.even n = true → Z.of_nat n ≤ w → reachable n w s → no_failure s →
  (8 * n - total_ops (sessions s) ≤ m)%nat →
  ∃ es s', Forall (λ e, ev_err e = None) es ∧ exec s es = Some s' ∧
           all_returned s'.
Proof.
  induction m as [|m IH]; intros s Hn Hw Hr Hnf Hm;
    (destruct (progress n w s Hn Hw Hr Hnf) as [Hall|(i & Hi & [s1 Hs1])];
      [by exists [], s|]).
  all: assert (reachable n w s1) as Hr1
         by (apply (reachable_exec n w s [ok_at i] s1 Hr); cbn [exec]; by rewrite Hs1).
  all: pose proof Hr1 as [es1 He1].
  all: pose proof (executions_are_bounded_aux n w es1 s1 He1) as Hb1.
  all: assert (total_ops (sessions s1) = S (total_ops (sessions s))) as Ht
         by (rewrite (exec_total [ok_at i] s s1) by (cbn [exec]; by rewrite Hs1);
             simpl; lia).
  - lia.
  - destruct (IH s1 Hn Hw Hr1) as (es & s' & Hok & He & Hall); [|lia|].
    { apply (ok_step_no_failure s i s1); [by apply (Inv_reachable n w)|done|done]. }
    exists (ok_at i :: es), s'. split_and!; [by constructor| |done].
    cbn [exec]. by rewrite Hs1.
Qed.

Lemma released_iff n s :
  reachable n (Z.of_nat n) s → (main_released s = true ↔ all_returned s).
Proof.
  intros [es He].
  pose proof (Sound_exec n _ es _ _ (Z.le_refl _) (Inv_init _ _) (Sound_init _ _) He)
    as [Hc Hp Hlen].
  unfold main_released, all_returned. rewrite Z.eqb_eq, <- finished_all. lia.
Qed.

(** ** Further properties of the message exchange *)

(** X1.  When [main] has added to [protoW] at least one unit per session,
    no wait group ever panics: [pingW] and [protoW] stay at zero or above,
    and [protoW] holds what [main] added less one unit for each session that
    has returned nil. *)
Theorem wait_groups_never_panic (n : nat) (w : Z) (s : Sys) :
  Z.of_nat n ≤ w → reachable n w s →
  crashed s = false ∧ 0 ≤ pingW s ∧
  protoW s = w - finished (sessions s) ∧ 0 ≤ protoW s.
Proof.
  intros Hw [es He].
  pose proof (Sound_exec n w es _ _ Hw (Inv_init n w) (Sound_init n w) He)
    as [Hc Hp Hlen].
  assert (Inv s) as Hi by (eapply Inv_reachable; by exists es).
  pose proof (finished_le (sessions s)).
  split_and!; [done| |done|lia].
  rewrite (inv_count s Hi). apply held_nonneg.
Qed.

Lemma wait_groups_never_panic_witness :
  ∃ s, exec demo happy = Some s ∧
       crashed s = false ∧ 0 ≤ pingW s ∧
       protoW s = 2 - finished (sessions s) ∧ 0 ≤ protoW s.
Proof.
  destruct (exec demo happy) as [s|] eqn:He; [|vm_compute in He; discriminate He].
  exists s. split; [reflexivity|].
  apply (wait_groups_never_panic 2 2 s); [lia|by exists happy].
Defined.

(** X2.  When [main] has added exactly one unit per session, as the sample
    does with its two servers, [protoW.Wait()] of [main] returns only once
    every session has returned nil, and does return then. *)
Theorem main_waits_for_every_session (n : nat) (s : Sys) :
  reachable n (Z.of_nat n) s →
  (main_released s = true ↔ all_returned s).
Proof. apply released_iff. Qed.

Lemma main_waits_for_every_session_witness :
  (∃ s, exec demo happy = Some s ∧ (main_released s = true ↔ all_returned s)) ∧
  (∃ s, exec demo one_waiting = Some s ∧ (main_released s = true ↔ all_returned s)).
Proof.
  split.
  - destruct (exec demo happy) as [s|] eqn:He; [|vm_compute in He; discriminate He].
    exists s. split; [reflexivity|].
    apply (main_waits_for_every_session 2 s). by exists happy.
  - destruct (exec demo one_waiting) as [s|] eqn:He;
      [|vm_compute in He; discriminate He].
    exists s. split; [reflexivity|].
    apply (main_waits_for_every_session 2 s). by exists one_waiting.
Defined.

(** X3.  An execution of [n] sessions has at most [8 n] steps, whatever
    the schedule and the failures: the exchange cannot go on for ever. *)
Theorem executions_are_bounded (n : nat) (w : Z) (es : list Event) (s : Sys) :
  exec (init n w) es = Some s → (length es ≤ 8 * n)%nat.
Proof. intros He. pose proof (executions_are_bounded_aux n w es s He). lia. Qed.

Lemma executions_are_bounded_witness :
  ∃ s, exec demo happy = Some s ∧ (length happy ≤ 8 * 2)%nat.
Proof.
  destruct (exec (init 2 2) happy) as [s|] eqn:He;
    [|vm_compute in He; discriminate He].
  exists s. split; [exact He|]. exact (executions_are_bounded 2 2 happy s He).
Defined.

(** X4.  Deadlock freedom.  With an even number of sessions, each facing
    its peer, and enough units in [protoW], a reachable state in which no
    session has returned an error is either final, every session having
    returned nil, or lets some session take a step. *)
Theorem no_deadlock (n : nat) (w : Z) (s : Sys) :
  Nat.even n = true → Z.of_nat n ≤ w → reachable n w s → no_failure s →
  all_returned s ∨ ∃ i, (i < n)%nat ∧ enabled s i.
Proof. apply progress. Qed.

Lemma no_failure_two s a b :
  sessions s = [a; b] →
  (∀ err, pc a ≠ Returned (Some err)) → (∀ err, pc b ≠ Returned (Some err)) →
  no_failure s.
Proof.
  intros Hs Ha Hb j x err Hj. rewrite Hs in Hj.
  destruct j as [|[|j]]; simplify_eq/=; [apply Ha|apply Hb].
Qed.

Lemma no_deadlock_witness :
  ∃ s, exec demo one_waiting = Some s ∧ no_failure s ∧
       (all_returned s ∨ ∃ i, (i < 2)%nat ∧ enabled s i).
Proof.
  destruct (exec demo one_waiting) as [s|] eqn:He;
    [|vm_compute in He; discriminate He].
  assert (no_failure s) as Hnf.
  { vm_compute in He. injection He as <-.
    eapply no_failure_two; [reflexivity|intros err H; discriminate H..]. }
  exists s. split; [reflexivity|]. split; [exact Hnf|].
  apply (no_deadlock 2 2 s); [reflexivity|lia|by exists one_waiting|exact Hnf].
Defined.

(** X5.  Completion.  Under the same conditions, from every reachable
    state in which no session has returned an error there is a continuation
    without failures after which every session has returned nil; when [main]
    added one unit per session, [protoW.Wait()] of [main] then returns. *)
Theorem failure_free_run_completes (n : nat) (w : Z) (s : Sys) :
  Nat.even n = true → Z.of_nat n ≤ w → reachable n w s → no_failure s →
  ∃ es s', Forall (λ e, ev_err e = None) es ∧ exec s es = Some s' ∧
           all_returned s' ∧ (w = Z.of_nat n → main_released s' = true).
Proof.
  intros Hn Hw Hr Hnf.
  destruct (completes_within n w (8 * n) s Hn Hw Hr Hnf) as (es & s' & Hok & He & Hall);
    [lia|].
  exists es, s'. split_and!; try done.
  intros ->. apply (released_iff n); [|done]. by eapply reachable_exec.
Qed.

Lemma failure_free_run_completes_witness :
  ∃ s, exec demo one_waiting = Some s ∧ no_failure s ∧
       ∃ es s', Forall (λ e, ev_err e = None) es ∧ exec s es = Some s' ∧
                all_returned s' ∧ (2 = Z.of_nat 2 → main_released s' = true).
Proof.
  destruct (exec demo one_waiting) as [s|] eqn:He;
    [|vm_compute in He; discriminate He].
  assert (no_failure s) as Hnf.
  { vm_compute in He. injection He as <-.
    eapply no_failure_two; [reflexivity|intros err H; discriminate H..]. }
  exists s. split; [reflexivity|]. split; [exact Hnf|].
  apply (failure_free_run_completes 2 2 s);
    [reflexivity|lia|by exists one_waiting|exact Hnf].
Defined.

(** X6.  A failing [p2p.Send] is fatal to its session and puts nothing on
    the connection.  When the first send fails, [Run] returns the error built
    from the failure without reading anything.  In the system a failed send,
    of the ping or of a pong, leaves every other session, the peer's inbox
    included, and both counters as they were, and the session takes no
    further step.  A send that succeeds appends exactly one message to the
    inbox of the peer: a ping from the first send, a pong from a later one,
    stamped with the clock of the step; no other session changes. *)
Theorem send_failure_is_fatal :
  (∀ i1 i2 ins err,
     io_err i2 = Some err →
     Run (i1 :: i2 :: ins)
       = (Returned (Some (Errorf "Send p2p message fail" err)),
          [OpAdd 1; OpSend (mkFooPingMsg false (now i2)) (Some err)])) ∧
  (∀ s e se err,
     crashed s = false → sessions s !! who e = Some se →
     pc se = AtSendPing ∨ pc se = AtSendPong → ev_err e = Some err →
     ∃ s' se',
       step s e = Some s' ∧ sessions s' !! who e = Some se' ∧
       pc se' = Returned (Some (Errorf "Send p2p message fail" err)) ∧
       (∀ j, j ≠ who e → sessions s' !! j = sessions s !! j) ∧
       pingW s' = pingW s ∧ protoW s' = protoW s ∧ crashed s' = false ∧
       (∀ e', who e' = who e → step s' e' = None)) ∧
  (∀ s e se b,
     crashed s = false → sessions s !! who e = Some se →
     pc se = AtSendPing ∨ pc se = AtSendPong → ev_err e = None →
     sessions s !! peer (who e) = Some b →
     ∃ s' se',
       step s e = Some s' ∧ sessions s' !! who e = Some se' ∧ pc se' = AtRead ∧
       sessions s' !! peer (who e)
         = Some (push (Encode 0 (mkFooPingMsg (bool_decide (pc se = AtSendPong))
                                              (ev_now e))) b) ∧
       (∀ j, j ≠ who e → j ≠ peer (who e) → sessions s' !! j = sessions s !! j)).
Proof.
  split_and!.
  - intros i1 i2 ins err He. unfold Run.
    rewrite (lrun_cons AtAdd i1 _ AtSendPing (OpAdd 1)) by done.
    rewrite (lrun_cons AtSendPing i2 _
               (Returned (Some (Errorf "Send p2p message fail" err)))
               (OpSend (mkFooPingMsg false (now i2)) (Some err)))
      by (simpl; by rewrite He).
    by rewrite lrun_returned.
  - intros s e se err Hc Hse Hpc He.
    assert (∃ m, lstep (pc se) (view s se e)
                 = Some (Returned (Some (Errorf "Send p2p message fail" err)),
                         OpSend m (Some err))) as [m Hl].
    { destruct Hpc as [-> | ->]; simpl; rewrite He; by eexists. }
    unfold step. rewrite Hc, Hse, Hl. simpl.
    set (se' := advance (Returned (Some (Errorf "Send p2p message fail" err)))
                  (OpSend m (Some err)) se).
    assert (alter (advance (Returned (Some (Errorf "Send p2p message fail" err)))
                     (OpSend m (Some err))) (who e) (sessions s) !! who e
            = Some se') as Hss by (by rewrite list_lookup_alter_eq, Hse).
    eexists _, se'. split_and!; try done.
    + intros j Hj. simpl. by rewrite list_lookup_alter_ne.
    + intros e' He'.
      apply (step_returned _ e' se' (Some (Errorf "Send p2p message fail" err)));
        [|done].
      simpl. by rewrite He'.
  - intros s e se b Hc Hse Hpc He Hb.
    pose proof (peer_ne (who e)) as Hne.
    assert (lstep (pc se) (view s se e)
            = Some (AtRead, OpSend (mkFooPingMsg (bool_decide (pc se = AtSendPong))
                                                 (ev_now e)) None)) as Hl.
    { destruct Hpc as [Hp | Hp]; rewrite Hp; simpl; by rewrite He. }
    unfold step. rewrite Hc, Hse, Hl. simpl.
    eexists _, (advance AtRead _ se). split_and!; try done.
    + simpl. rewrite list_lookup_alter_ne by done.
      by rewrite list_lookup_alter_eq, Hse.
    + simpl. rewrite list_lookup_alter_eq, list_lookup_alter_ne by done.
      by rewrite Hb.
    + intros j Hj Hjp. simpl. by rewrite !list_lookup_alter_ne.
Qed.

Lemma send_failure_is_fatal_witness :
  let s := mkSys 1 2 false [mkSession AtSendPing [] [OpAdd 1]; idle] in
  let se := mkSession AtSendPing [] [OpAdd 1] in
  Run (quiet :: mkInput 7 (Some "broken pipe") None 0 :: [quiet])
    = (Returned (Some "Send p2p message fail: broken pipe"),
       [OpAdd 1; OpSend (mkFooPingMsg false 7) (Some "broken pipe")]) ∧
  (∃ s' se',
     step s (fail_at 0 "broken pipe") = Some s' ∧ sessions s' !! 0%nat = Some se' ∧
     pc se' = Returned (Some "Send p2p message fail: broken pipe") ∧
     (∀ j, j ≠ 0%nat → sessions s' !! j = sessions s !! j) ∧
     pingW s' = pingW s ∧ protoW s' = protoW s ∧ crashed s' = false ∧
     (∀ e', who e' = 0%nat → step s' e' = None)) ∧
  (∃ s' se',
     step s (ok_at 0) = Some s' ∧ sessions s' !! 0%nat = Some se' ∧ pc se' = AtRead ∧
     sessions s' !! 1%nat = Some (push (Encode 0 (mkFooPingMsg false 0)) idle) ∧
     (∀ j, j ≠ 0%nat → j ≠ 1%nat → sessions s' !! j = sessions s !! j)).
Proof.
  intros s se. destruct send_failure_is_fatal as (H1 & H2 & H3). split_and!.
  - apply (H1 quiet (mkInput 7 (Some "broken pipe") None 0) [quiet] "broken pipe").
    reflexivity.
  - apply (H2 s (fail_at 0 "broken pipe") se "broken pipe"); try reflexivity.
    by left.
  - apply (H3 s (ok_at 0) se idle); try reflexivity. by left.
Defined.

End ExchangeFacts.

(** * Completed exchanges and the returns of [Run]

    What a completed exchange looks like, and which returns of [Run] the
    barrier [pingW] gates; both rest on the completion of the exchange
    shown above. *)
Module CompletionFacts.
Import Proto ProtoFacts Exchange ExchangeFacts.

(** A step only ever extends the history of a session. *)
Lemma step_hist s e s' i a :
  step s e = Some s' → sessions s !! i = Some a →
  ∃ a', sessions s' !! i = Some a' ∧ hist a `prefix_of` hist a'.
Proof.
  intros (se & pc' & o & _ & Hse & _ & _ & Hss)%step_inv Ha.
  exists (after (who e) pc' o i a). split; [by rewrite Hss, Ha|].
  destruct (decide (i = who e)) as [->|Hne].
  - rewrite hist_after_eq. by apply prefix_app_r.
  - by rewrite hist_after_ne.
Qed.

Lemma exec_hist es : ∀ s s' i a,
  exec s es = Some s' → sessions s !! i = Some a →
  ∃ a', sessions s' !! i = Some a' ∧ hist a `prefix_of` hist a'.
Proof.
  induction es as [|e es IH]; intros s s' i a He Ha; simpl in He.
  - simplify_eq. by exists a.
  - destruct (step s e) as [s1|] eqn:Hs; [|done].
    destruct (step_hist s e s1 i a Hs Ha) as (a1 & Ha1 & Hp1).
    destruct (IH s1 s' i a1 He Ha1) as (a' & Ha' & Hp').
    exists a'. split; [done|]. by etrans.
Qed.

Lemma prefix_elem_of {A} (l1 l2 : list A) x : l1 `prefix_of` l2 → x ∈ l1 → x ∈ l2.
Proof. intros [k ->] Hx. apply elem_of_app. by left. Qed.

Lemma done_in_kinds (h : list Op) : OpDone ∈ h → KDone ∈ kind <$> h.
Proof. intros H. apply list_elem_of_fmap. by exists OpDone. Qed.

(** A session whose history holds [pingW.Done()] has read its pong. *)
Lemma done_ponged s j b :
  Inv s → sessions s !! j = Some b → OpDone ∈ hist b →
  ponged (pc b) = true ∧ acknowledged (hist b).
Proof.
  intros Hi Hb Hd. pose proof (inv_shape s Hi j b Hb) as Hs.
  pose proof (shape_done _ _ Hs (done_in_kinds _ Hd)) as Hp.
  split; [done|]. apply kinds_acknowledged. by apply (shape_ponged _ _ Hs).
Qed.

(** A session that waits at the barrier faces a peer that has entered
    [Run]. *)
Lemma waiting_peer_entered s i a :
  Inv s → sessions s !! i = Some a → ponged (pc a) = true →
  ∃ b, sessions s !! peer i = Some b ∧ pc b ≠ AtAdd.
Proof.
  intros Hi Ha Hp.
  destruct (shape_past_loop _ _ (inv_shape s Hi i a Ha) Hp) as (k & _ & Hreads).
  destruct (reads_prefix s i a Hi Ha) as [l Hl]. rewrite Hreads in Hl.
  unfold hist_at in Hl.
  destruct (sessions s !! peer i) as [b|] eqn:Hb; simpl in Hl.
  - exists b. split; [done|]. intros Hpc.
    pose proof (inv_shape s Hi (peer i) b Hb) as Hs. rewrite Hpc in Hs.
    simpl in Hs. rewrite Hs in Hl. simpl in Hl.
    by destruct k.
  - by destruct k.
Qed.

Lemma error_never_waited pc ks r :
  shape pc ks → pc = Returned (Some r) → KWait ∉ ks.
Proof.
  intros Hs -> Hin. simpl in Hs.
  destruct Hs as [->|(k & [->|[->| ->]])];
    repeat first [rewrite elem_of_app in Hin | rewrite elem_of_cons in Hin
                 | rewrite elem_of_nil in Hin];
    repeat match goal with
           | H : _ ∈ base _ |- _ => apply elem_of_base in H
           | H : _ ∈ rounds _ |- _ => apply elem_of_rounds in H
           | H : _ ∨ _ |- _ => destruct H
           end; done.
Qed.

(** [Run] against [k] pings followed by a pong. *)
Lemma Run_exchange k ping pong d d' :
  Decode ping = inr d → Pong d = false → Decode pong = inr d' → Pong d' = true →
  ∃ ops,
    Run (quiet :: quiet :: concat (replicate k [arrives ping; quiet])
           ++ [arrives pong; quiet; quiet; quiet]) = (Returned None, ops) ∧
    kind <$> ops = base k ++ [KRead true; KDone; KWait; KProtoDone].
Proof.
  intros Hd Hp Hd' Hp'.
  destruct (lrun_pings k ping d Hd Hp) as (ops & Hr & Hk).
  exists (OpAdd 1 :: OpSend (mkFooPingMsg false 0) None ::
          ops ++ [OpRead (inr pong); OpDone; OpWait; OpProtoDone]).
  assert (lstep AtRead (arrives pong) = Some (AtDone, OpRead (inr pong))) as Hl.
  { simpl. by rewrite Hd', Hp'. }
  unfold Run.
  rewrite (lrun_cons AtAdd quiet _ AtSendPing (OpAdd 1)) by done.
  rewrite (lrun_cons AtSendPing quiet _ AtRead (OpSend (mkFooPingMsg false 0) None))
    by done.
  rewrite lrun_app, Hr.
  rewrite (lrun_cons AtRead (arrives pong) _ AtDone (OpRead (inr pong)) Hl).
  simpl. split; [done|].
  rewrite fmap_app, Hk. simpl. by rewrite Hd', Hp'.
Qed.

(** C4.  In every state the system reaches, what a session has sent is a
    prefix of ping, pong: it never sends a second acknowledgement.  A session
    that has returned nil has done exactly this: joined the barrier, sent its
    ping before any read, read the peer's ping, answered it with one pong,
    read its own pong, and left through the barrier; and its peer has sent
    exactly one ping and one pong as well.  Against any input (a peer that
    sends several pings), a session that returns nil has sent its ping once,
    before the loop, and one pong right after each ping it read.  Such
    exchanges do complete: when the sessions come in pairs, [main] has added
    a unit of [protoW] for each, and no session has returned an error, some
    continuation without failures ends with every session returned nil, each
    having sent exactly one ping and then one pong.  And a session that is
    sent [k] pings and then a pong returns nil, having sent one ping and
    [k] pongs. *)
Theorem pair_exchanges_one_ping_one_pong (n : nat) (w : Z) (s : Sys) :
  reachable n w s →
  (∀ j a, sessions s !! j = Some a →
     Pong <$> sentM (hist a) `prefix_of` [false; true]) ∧
  (∀ j a, sessions s !! j = Some a → pc a = Returned None →
     kind <$> hist a =
       [KAdd; KSend false true; KRead false; KSend true true;
        KRead true; KDone; KWait; KProtoDone] ∧
     Pong <$> sentM (hist_at s (peer j)) = [false; true]) ∧
  (∀ ins ops, Run ins = (Returned None, ops) →
     ∃ k, kind <$> ops =
            [KAdd; KSend false true] ++ rounds k ++
            [KRead true; KDone; KWait; KProtoDone]) ∧
  (Nat.even n = true → Z.of_nat n ≤ w → no_failure s →
     ∃ es s', Forall (λ e, ev_err e = None) es ∧ exec s es = Some s' ∧
              length (sessions s') = n ∧
              ∀ j a, sessions s' !! j = Some a →
                pc a = Returned None ∧
                Pong <$> sentM (hist a) = [false; true] ∧
                dec_flag <$> rcvdM (hist a) = [Some false; Some true]) ∧
  (∀ k ping pong d d',
     Decode ping = inr d → Pong d = false → Decode pong = inr d' → Pong d' = true →
     ∃ ops,
       Run (quiet :: quiet :: concat (replicate k [arrives ping; quiet])
              ++ [arrives pong; quiet; quiet; quiet]) = (Returned None, ops) ∧
       Pong <$> sentM ops = false :: replicate k true).
Proof.
  intros Hr. pose proof (Inv_reachable _ _ _ Hr) as Hi. split_and!.
  - intros j a Ha. rewrite <- sentK_kind. by eapply sent_bound.
  - intros j a Ha Hpc. rewrite <- sentK_kind. by eapply completed_hist.
  - intros ins ops Hrun. apply Run_shape in Hrun as [k Hk]. by exists k.
  - intros Hn Hw Hnf.
    destruct (completes_within n w (8 * n) s Hn Hw Hr Hnf)
      as (es & s' & Hok & He & Hall); [lia|].
    assert (reachable n w s') as Hr' by (by eapply reachable_exec).
    pose proof (Inv_reachable _ _ _ Hr') as Hi'.
    exists es, s'. split_and!; try done.
    { destruct Hr' as [es' He']. rewrite (exec_length es' _ _ He'). simpl.
      apply length_replicate. }
    intros j a Ha. pose proof (Hall j a Ha) as Hpc.
    destruct (completed_hist s' j a Hi' Ha Hpc) as [Hk _].
    split_and!; [done| |].
    + rewrite <- sentK_kind, Hk. done.
    + rewrite <- readsK_kind, Hk. done.
  - intros k ping pong d d' Hd Hp Hd' Hp'.
    destruct (Run_exchange k ping pong d d' Hd Hp Hd' Hp') as (ops & Hrun & Hk).
    exists ops. split; [done|].
    rewrite <- sentK_kind, Hk, sentK_base. simpl. by rewrite app_nil_r.
Qed.

(** The sample: both sessions return nil, each having sent its ping and one
    pong; and from its start the sample can run to completion. *)
Lemma pair_exchanges_one_ping_one_pong_witness :
  let ping := Encode 0 (mkFooPingMsg false 0) in
  let pong := Encode 0 (mkFooPingMsg true 0) in
  (∃ s a b,
     exec demo happy = Some s ∧ sessions s = [a; b] ∧
     pc a = Returned None ∧ pc b = Returned None ∧
     Pong <$> sentM (hist a) = [false; true] ∧
     Pong <$> sentM (hist b) = [false; true] ∧
     kind <$> hist a =
       [KAdd; KSend false true; KRead false; KSend true true;
        KRead true; KDone; KWait; KProtoDone] ∧
     (∀ j c, sessions s !! j = Some c →
        Pong <$> sentM (hist c) `prefix_of` [false; true])) ∧
  (no_failure demo ∧
   ∃ es s', Forall (λ e, ev_err e = None) es ∧ exec demo es = Some s' ∧
            length (sessions s') = 2%nat ∧
            ∀ j a, sessions s' !! j = Some a →
              pc a = Returned None ∧
              Pong <$> sentM (hist a) = [false; true] ∧
              dec_flag <$> rcvdM (hist a) = [Some false; Some true]) ∧
  (∃ ops,
     Run (quiet :: quiet :: concat (replicate 2 [arrives ping; quiet])
            ++ [arrives pong; quiet; quiet; quiet]) = (Returned None, ops) ∧
     Pong <$> sentM ops = false :: replicate 2 true).
Proof.
  intros ping pong. split_and!.
  - destruct (exec demo happy) as [s|] eqn:He; [|vm_compute in He; discriminate He].
    assert (∃ a b, sessions s = [a; b] ∧ pc a = Returned None ∧ pc b = Returned None)
      as (a & b & Hs & Ha & Hb).
    { vm_compute in He. injection He as <-. eexists _, _. split_and!; reflexivity. }
    assert (reachable 2 2 s) as Hr by (by exists happy).
    destruct (pair_exchanges_one_ping_one_pong 2 2 s Hr) as (H1 & H2 & _).
    assert (sessions s !! 0%nat = Some a) as Ha0 by (by rewrite Hs).
    assert (sessions s !! 1%nat = Some b) as Hb1 by (by rewrite Hs).
    pose proof (H2 0%nat a Ha0 Ha) as [Hka Hsb].
    pose proof (H2 1%nat b Hb1 Hb) as [Hkb Hsa].
    change (peer 1) with 0%nat in Hsa. change (peer 0) with 1%nat in Hsb.
    unfold hist_at in Hsa, Hsb. rewrite Ha0 in Hsa. rewrite Hb1 in Hsb.
    exists s, a, b. split_and!; done.
  - apply (no_failure_two demo idle idle); [reflexivity|intros err H; discriminate H..].
  - assert (reachable 2 2 demo) as Hr by (by exists []).
    destruct (pair_exchanges_one_ping_one_pong 2 2 demo Hr) as (_ & _ & _ & H4 & _).
    apply H4; [reflexivity|lia|].
    apply (no_failure_two demo idle idle); [reflexivity|intros err H; discriminate H..].
  - assert (reachable 2 2 demo) as Hr by (by exists []).
    destruct (pair_exchanges_one_ping_one_pong 2 2 demo Hr) as (_ & _ & _ & _ & H5).
    apply (H5 2%nat ping pong (mkFooPingMsg false 0) (mkFooPingMsg true 0)); reflexivity.
Defined.

(** C5 as stated fails.  In the sample itself the read of session 0 fails
    and its [Run] returns while the counter of [pingW], raised by its own
    [pingW.Add(1)], has been at one ever since and never at zero.  And with
    a second connection, session 0 passes [pingW.Wait()] with the counter at
    zero, session 2 then enters [Run] and awaits its pong, and session 0
    returns nil all the same. *)
Lemma Run_returns_with_barrier_raised :
  (∃ s1 s2 s3 a,
     step demo (ok_at 0) = Some s1 ∧ step s1 (ok_at 0) = Some s2 ∧
     step s2 (fail_at 0 "EOF") = Some s3 ∧
     pingW s1 = 1 ∧ pingW s2 = 1 ∧ pingW s3 = 1 ∧
     sessions s3 !! 0%nat = Some a ∧
     pc a = Returned (Some "Receive p2p message fail: EOF")) ∧
  (∃ s s' a b a',
     exec (init 4 4) (take 13 happy ++ [ok_at 2]) = Some s ∧
     sessions s !! 0%nat = Some a ∧ pc a = AtProtoDone ∧ acknowledged (hist a) ∧
     sessions s !! 2%nat = Some b ∧ joined (pc b) ∧ ¬ acknowledged (hist b) ∧
     pingW s = 1 ∧
     step s (ok_at 0) = Some s' ∧
     sessions s' !! 0%nat = Some a' ∧ pc a' = Returned None ∧
     sessions s' !! 2%nat = Some b ∧ pingW s' = 1).
Proof.
  split.
  - eexists _, _, _, _. split_and!; reflexivity.
  - destruct (exec (init 4 4) (take 13 happy ++ [ok_at 2])) as [s|] eqn:He;
      [|vm_compute in He; discriminate He].
    vm_compute in He. injection He as <-.
    eexists _, _, _, _, _. split_and!; try reflexivity.
    + eexists (Encode 0 (mkFooPingMsg true 0)), _. split_and!; [|reflexivity..].
      repeat first [apply list_elem_of_here | apply list_elem_of_further].
    + left. reflexivity.
    + intros (msg & d & Hin & _). simpl in Hin.
      repeat first [rewrite elem_of_cons in Hin | rewrite elem_of_nil in Hin].
      destruct Hin as [H|H]; [discriminate H|done].
Qed.

(** C5, as amended.  In every execution in which session [i] ends up
    returned with nil, there is an earlier moment at which [i] stood at
    [pingW.Wait()] with the counter at zero and took its next step from
    there; at that moment every session that had entered [Run] had read its
    own pong and called [pingW.Done()].  While any session has joined and
    not yet read its pong, no session that stands at [pingW.Wait()] can take
    a step.  So when a session has returned nil, the session at the other
    end of its connection has read its own pong.  The barrier gates nothing
    else.  A session that returns an error never stood at [pingW.Wait()],
    and from its entry to its return the counter was at one or more.  And a
    session that has passed [pingW.Wait()] returns nil at its next step,
    whatever the other sessions and the counter are by then. *)
Theorem barrier_gates_nil_return (n : nat) (w : Z) :
  (∀ es s i a,
     exec (init n w) es = Some s → sessions s !! i = Some a → pc a = Returned None →
     ∃ es1 e es2 s1 a1,
       es = es1 ++ e :: es2 ∧ who e = i ∧ exec (init n w) es1 = Some s1 ∧
       sessions s1 !! i = Some a1 ∧ pc a1 = AtWait ∧ pingW s1 = 0 ∧
       ∀ j b, sessions s1 !! j = Some b → pc b ≠ AtAdd →
              acknowledged (hist b) ∧ OpDone ∈ hist b) ∧
  (∀ s e a j b,
     reachable n w s → sessions s !! who e = Some a → pc a = AtWait →
     sessions s !! j = Some b → joined (pc b) → step s e = None) ∧
  (∀ s i a,
     reachable n w s → sessions s !! i = Some a → pc a = Returned None →
     ∃ b, sessions s !! peer i = Some b ∧
          ponged (pc b) = true ∧ acknowledged (hist b)) ∧
  (∀ es1 es2 s1 s i a1 a err,
     exec (init n w) es1 = Some s1 → exec s1 es2 = Some s →
     sessions s1 !! i = Some a1 → pc a1 ≠ AtAdd →
     sessions s !! i = Some a → pc a = Returned (Some err) →
     1 ≤ pingW s1 ∧ (OpWait ∉ hist a)) ∧
  (∀ s e a,
     Z.of_nat n ≤ w → reachable n w s →
     sessions s !! who e = Some a → pc a = AtProtoDone →
     ∃ s' a', step s e = Some s' ∧ sessions s' !! who e = Some a' ∧
              pc a' = Returned None ∧ crashed s' = false ∧ pingW s' = pingW s).
Proof.
  assert (∀ es s i a,
     exec (init n w) es = Some s → sessions s !! i = Some a → pc a = Returned None →
     ∃ es1 e es2 s1 a1,
       es = es1 ++ e :: es2 ∧ who e = i ∧ exec (init n w) es1 = Some s1 ∧
       sessions s1 !! i = Some a1 ∧ pc a1 = AtWait ∧ pingW s1 = 0 ∧
       ∀ j b, sessions s1 !! j = Some b → pc b ≠ AtAdd →
              acknowledged (hist b) ∧ OpDone ∈ hist b) as Hgate.
  { intros es s i a He Ha Hpc.
    destruct (exec_passes_wait es (init n w) s i a He Ha Hpc)
      as (es1 & e & es2 & s1 & a1 & -> & Hw & He1 & Ha1 & Hpc1 & Hz).
    { intros a0 [-> _]%lookup_replicate. done. }
    exists es1, e, es2, s1, a1. split_and!; try done.
    intros j b Hb Hstart.
    assert (Inv s1) as Hi by (eapply Inv_reachable; by exists es1).
    pose proof (inv_shape s1 Hi j b Hb) as Hs.
    assert (units (pc b) = 0) as Hu.
    { eapply held_zero; [|done]. by rewrite <- (inv_count s1 Hi). }
    assert (ponged (pc b) = true) as Hp.
    { destruct (pc b) as [| | | | | | |[err|]]; done. }
    destruct (shape_ponged _ _ Hs Hp) as [Hr Hd]. split.
    + by apply kinds_acknowledged.
    + apply Hd in Hu. apply list_elem_of_fmap in Hu as (o & Ho & Hin).
      symmetry in Ho. apply kind_done in Ho. by subst. }
  split_and!.
  - exact Hgate.
  - intros s e a j b Hr Ha Hpc Hb Hj.
    eapply joined_blocks_wait; [by eapply Inv_reachable|done| |done..].
    destruct Hj as [->|[->| ->]]; done.
  - intros s i a [es He] Ha Hpc.
    destruct (Hgate es s i a He Ha Hpc)
      as (es1 & e & es2 & s1 & a1 & -> & _ & He1 & Ha1 & Hpc1 & _ & Hall).
    assert (Inv s1) as Hi1 by (eapply Inv_reachable; by exists es1).
    destruct (waiting_peer_entered s1 i a1 Hi1 Ha1) as (b1 & Hb1 & Hne).
    { by rewrite Hpc1. }
    destruct (Hall _ _ Hb1 Hne) as [_ Hd1].
    rewrite exec_app, He1 in He. simpl in He.
    destruct (exec_hist (e :: es2) s1 s (peer i) b1 He Hb1) as (b & Hb & Hpre).
    exists b. split; [done|].
    apply (done_ponged s (peer i)); [|done|by eapply prefix_elem_of].
    eapply Inv_reachable. exists (es1 ++ e :: es2). by rewrite exec_app, He1.
  - intros es1 es2 s1 s i a1 a err He1 He2 Ha1 Hne Ha Hpc.
    assert (Inv s1) as Hi1 by (eapply Inv_reachable; by exists es1).
    assert (Inv s) as Hi.
    { eapply Inv_reachable. exists (es1 ++ es2). by rewrite exec_app, He1. }
    pose proof (inv_shape s Hi i a Ha) as Hs.
    destruct (exec_hist es2 s1 s i a1 He2 Ha1) as (a' & Ha' & Hpre).
    assert (a' = a) as -> by congruence.
    split.
    + pose proof (held_ge _ _ _ Ha1) as Hge. rewrite <- (inv_count s1 Hi1) in Hge.
      destruct (decide (units (pc a1) = 1)) as [Hu|Hu]; [lia|].
      exfalso.
      assert (ponged (pc a1) = true ∧ units (pc a1) = 0) as [Hp Hu0].
      { destruct (pc a1) as [| | | | | | |[?|]]; done. }
      pose proof (inv_shape s1 Hi1 i a1 Ha1) as Hs1.
      destruct (shape_ponged _ _ Hs1 Hp) as [_ Hd]. specialize (Hd Hu0).
      apply list_elem_of_fmap in Hd as (o & Ho & Hin).
      symmetry in Ho. apply kind_done in Ho. subst o.
      destruct (done_ponged s i a Hi Ha (prefix_elem_of _ _ _ Hpre Hin)) as [Hp' _].
      by rewrite Hpc in Hp'.
    + intros Hin. apply (error_never_waited _ _ err Hs Hpc).
      apply list_elem_of_fmap. by exists OpWait.
  - intros s e a Hw Hr Ha Hpc.
    pose proof (Inv_reachable _ _ _ Hr) as Hi. destruct Hr as [es He].
    pose proof (Sound_exec n w es _ _ Hw (Inv_init n w) (Sound_init n w) He) as Hsnd.
    assert (lstep (pc a) (view s a e) = Some (Returned None, OpProtoDone)) as Hl.
    { by rewrite Hpc. }
    assert (∃ s', step s e = Some s') as [s' Hs'].
    { unfold step. rewrite (sound_crashed _ _ _ Hsnd), Ha, Hl. by eexists. }
    pose proof Hs' as (se & pc' & o & _ & Hse & Hl' & HpW & Hss)%step_inv.
    assert (se = a) as -> by congruence. rewrite Hl in Hl'. simplify_eq.
    exists s', (after (who e) (Returned None) OpProtoDone (who e) a).
    split_and!; [done|by rewrite Hss, Ha|by rewrite pc_after_eq| |done].
    apply (sound_crashed n w). by eapply Sound_step.
Qed.

(** The sample runs to completion; one session waits while the other has
    not read its pong; the read of session 0 fails. *)
Lemma barrier_gates_nil_return_witness :
  (∃ s a, exec demo happy = Some s ∧ sessions s !! 0%nat = Some a ∧
          pc a = Returned None ∧
          (∃ es1 e es2 s1 a1,
             happy = es1 ++ e :: es2 ∧ who e = 0%nat ∧ exec demo es1 = Some s1 ∧
             sessions s1 !! 0%nat = Some a1 ∧ pc a1 = AtWait ∧ pingW s1 = 0 ∧
             ∀ j b, sessions s1 !! j = Some b → pc b ≠ AtAdd →
                    acknowledged (hist b) ∧ OpDone ∈ hist b) ∧
          ∃ b, sessions s !! peer 0 = Some b ∧
               ponged (pc b) = true ∧ acknowledged (hist b)) ∧
  (∃ s a b, exec demo one_waiting = Some s ∧
            sessions s !! 0%nat = Some a ∧ pc a = AtWait ∧
            sessions s !! 1%nat = Some b ∧ joined (pc b) ∧
            step s (ok_at 0) = None) ∧
  (∃ s1 s a1 a,
     exec demo [ok_at 0] = Some s1 ∧ exec s1 [ok_at 0; fail_at 0 "EOF"] = Some s ∧
     sessions s1 !! 0%nat = Some a1 ∧ pc a1 ≠ AtAdd ∧
     sessions s !! 0%nat = Some a ∧
     pc a = Returned (Some "Receive p2p message fail: EOF") ∧
     1 ≤ pingW s1 ∧ (OpWait ∉ hist a)) ∧
  (∃ s a s' a',
     exec demo (take 13 happy) = Some s ∧
     sessions s !! 0%nat = Some a ∧ pc a = AtProtoDone ∧
     step s (ok_at 0) = Some s' ∧ sessions s' !! 0%nat = Some a' ∧
     pc a' = Returned None ∧ crashed s' = false ∧ pingW s' = pingW s).
Proof.
  destruct (barrier_gates_nil_return 2 2) as (H1 & H2 & H3 & H4 & H5). split_and!.
  - destruct (exec demo happy) as [s|] eqn:He; [|vm_compute in He; discriminate He].
    destruct (sessions s !! 0%nat) as [a|] eqn:Ha;
      [|vm_compute in He; injection He as <-; discriminate Ha].
    assert (pc a = Returned None) as Hpc.
    { vm_compute in He. injection He as <-. injection Ha as <-. reflexivity. }
    exists s, a. split; [reflexivity|]. split; [exact Ha|]. split; [exact Hpc|].
    split.
    + exact (H1 happy s 0%nat a He Ha Hpc).
    + apply (H3 s 0%nat a); [exists happy; exact He|exact Ha|exact Hpc].
  - destruct (exec demo one_waiting) as [s|] eqn:He; [|vm_compute in He; discriminate He].
    destruct (sessions s !! 0%nat) as [a|] eqn:Ha;
      [|vm_compute in He; injection He as <-; discriminate Ha].
    destruct (sessions s !! 1%nat) as [b|] eqn:Hb;
      [|vm_compute in He; injection He as <-; discriminate Hb].
    assert (pc a = AtWait) as Hpa.
    { vm_compute in He. injection He as <-. injection Ha as <-. reflexivity. }
    assert (joined (pc b)) as Hpb.
    { vm_compute in He. injection He as <-. injection Hb as <-. right. left. reflexivity. }
    exists s, a, b. split_and!; try done.
    apply (H2 s (ok_at 0) a 1%nat b); try done. by exists one_waiting.
  - destruct (exec demo [ok_at 0]) as [s1|] eqn:He1; [|vm_compute in He1; discriminate He1].
    destruct (exec s1 [ok_at 0; fail_at 0 "EOF"]) as [s|] eqn:He2;
      [|vm_compute in He1; injection He1 as <-; vm_compute in He2; discriminate He2].
    destruct (sessions s1 !! 0%nat) as [a1|] eqn:Ha1;
      [|vm_compute in He1; injection He1 as <-; discriminate Ha1].
    destruct (sessions s !! 0%nat) as [a|] eqn:Ha;
      [|vm_compute in He1; injection He1 as <-; vm_compute in He2;
        injection He2 as <-; discriminate Ha].
    assert (pc a1 ≠ AtAdd) as Hne.
    { vm_compute in He1. injection He1 as <-. injection Ha1 as <-. discriminate. }
    assert (pc a = Returned (Some "Receive p2p message fail: EOF")) as Hpc.
    { vm_compute in He1. injection He1 as <-. vm_compute in He2. injection He2 as <-.
      injection Ha as <-. reflexivity. }
    exists s1, s, a1, a.
    split; [reflexivity|]. split; [exact He2|]. split; [exact Ha1|].
    split; [exact Hne|]. split; [exact Ha|]. split; [exact Hpc|].
    exact (H4 [ok_at 0] [ok_at 0; fail_at 0 "EOF"] s1 s 0%nat a1 a
              "Receive p2p message fail: EOF" He1 He2 Ha1 Hne Ha Hpc).
  - destruct (exec demo (take 13 happy)) as [s|] eqn:He;
      [|vm_compute in He; discriminate He].
    destruct (sessions s !! 0%nat) as [a|] eqn:Ha;
      [|vm_compute in He; injection He as <-; discriminate Ha].
    assert (pc a = AtProtoDone) as Hpc.
    { vm_compute in He. injection He as <-. injection Ha as <-. reflexivity. }
    destruct (H5 s (ok_at 0) a) as (s' & a' & Hs');
      [lia|exists (take 13 happy); exact He|exact Ha|exact Hpc|].
    exists s, a, s', a'.
    split; [reflexivity|]. split; [exact Ha|]. split; [exact Hpc|]. exact Hs'.
Defined.

End CompletionFacts.

Module ReplyFacts.
Import Reply.

Lemma run_snoc st os o : run st (os ++ [o]) = on_occ (run st os) o.
Proof. unfold run. by rewrite foldl_app. Qed.

Lemma taken_snoc os : ∀ st o,
  taken st (os ++ [o]) = taken st os + (if takes (run st os) o then 1 else 0).
Proof.
  induction os as [|x os IH]; intros st o; simpl; [lia|].
  rewrite IH. unfold run. simpl. lia.
Qed.

Lemma Counted_start : Counted start 0.
Proof. split; simpl; [intros _; split_and!; done|done]. Qed.

Lemma Counted_step st t o :
  Counted st t → Counted (on_occ st o) (t + (if takes st o then 1 else 0)).
Proof.
  intros [Hok Hp]. unfold takes, on_occ.
  destruct (panicked st) eqn:Hpan; simpl.
  { split; [by rewrite Hpan|]. intros _. rewrite Z.add_0_r. by apply Hp. }
  destruct (Hok eq_refl) as (Hw & Hnn & Hpast). clear Hok Hp.
  destruct o as [|nd type|nd].
  - rewrite Z.add_0_r. unfold main_step.
    destruct (main st) eqn:Hm; simpl in *.
    + unfold add, Proto.wg_add. destruct (messageW st + 1 <? 0) eqn:Hz; [lia|].
      split; simpl; [intros _; split_and!; [lia|lia|done]|by rewrite Hpan].
    + split; simpl; [intros _; split_and!; [lia|lia|done]|by rewrite Hpan].
    + unfold add, Proto.wg_add. destruct (messageW st + 1 <? 0) eqn:Hz; [lia|].
      split; simpl; [intros _; split_and!; [lia|lia|done]|by rewrite Hpan].
    + split; simpl; [intros _; split_and!; [lia|lia|done]|by rewrite Hpan].
    + destruct (messageW st =? 0) eqn:Hz.
      * apply Z.eqb_eq in Hz.
        split; simpl; [intros _; split_and!; [lia|lia|done]|by rewrite Hpan].
      * split; rewrite Hm; simpl; [intros _; split_and!; [lia|lia|done]|by rewrite Hpan].
    + split; rewrite Hm; simpl; [intros _; split_and!; [lia|lia|]|by rewrite Hpan].
      intros _. by apply Hpast.
  - unfold loop_step. destruct (running st nd) eqn:Hr; simpl.
    2:{ rewrite Z.add_0_r. split; [intros _; by split_and!|by rewrite Hpan]. }
    destruct (String.eqb type "add") eqn:Ha.
    { apply String.eqb_eq in Ha as ->. simpl. rewrite Z.add_0_r.
      split; simpl; [intros _; by split_and!|by rewrite Hpan]. }
    destruct (String.eqb type "msgrecv") eqn:Hmsg.
    2:{ rewrite Z.add_0_r. split; [intros _; by split_and!|by rewrite Hpan]. }
    unfold done, add, Proto.wg_add. simpl.
    destruct (messageW st + -1 <? 0) eqn:Hz; split; simpl.
    + done.
    + intros _. lia.
    + intros _. split_and!; [lia|lia|]. intros Hm. specialize (Hpast Hm). lia.
    + by rewrite Hpan.
  - rewrite Z.add_0_r. unfold loop_step. destruct (running st nd); simpl.
    + destruct nd; split; simpl; [intros _; by split_and!|by rewrite Hpan..].
    + split; [intros _; by split_and!|by rewrite Hpan].
Qed.

Lemma Counted_run os : Counted (run start os) (taken start os).
Proof.
  induction os as [|o os IH] using rev_ind; [apply Counted_start|].
  rewrite run_snoc, taken_snoc. by apply Counted_step.
Qed.

Lemma adds_bounds pc : 0 ≤ adds pc ≤ 2.
Proof. destruct pc; simpl; lia. Qed.

(** X7.  [messageW] counts events, not sides, and its two units are not in
    place when the first loop starts.  As long as the wait group has not
    panicked, its counter is the number of units [main] has added so far
    less the events of type msgrecv taken by running loops, whichever node
    they are for.  It panics exactly when more such events have been taken
    than units added so far.  [messageW.Wait()] returns exactly when two
    events have been taken; once it has returned, two or more have. *)
Theorem messageW_counts_msgrecv (os : list Occ) :
  let st := run start os in
  (panicked st = false →
     messageW st = adds (main st) - taken start os ∧ 0 ≤ messageW st) ∧
  (panicked st = true ↔ adds (main st) < taken start os) ∧
  (panicked st = false → main st = AtWait →
     (released (on_occ st MainStep) = true ↔ taken start os = 2)) ∧
  (released st = true → 2 ≤ taken start os).
Proof.
  intros st. destruct (Counted_run os) as [Hok Hp]. fold st in Hok, Hp.
  clearbody st. split_and!.
  - intros Hn. destruct (Hok Hn) as (? & ? & _). done.
  - split.
    + intros H. rewrite (Hp H). lia.
    + intros H. destruct (panicked st) eqn:Hpan; [done|].
      destruct (Hok eq_refl) as (? & ? & _). lia.
  - intros Hn Hm. destruct (Hok Hn) as (Hw & Hnn & _).
    unfold on_occ, main_step. rewrite Hn, Hm. rewrite Hm in Hw. simpl in Hw.
    destruct (messageW st =? 0) eqn:Hz; simpl.
    + apply Z.eqb_eq in Hz. split; [lia|done].
    + apply Z.eqb_neq in Hz. unfold released. rewrite Hm. split; [done|lia].
  - unfold released. intros Hr.
    destruct (main st) eqn:Hm; try done.
    destruct (panicked st) eqn:Hpan.
    + rewrite (Hp eq_refl). simpl. lia.
    + destruct (Hok eq_refl) as (Hw & _ & Hz). rewrite (Hz eq_refl) in Hw.
      simpl in Hw. lia.
Qed.

(** Both events are for node one and [main] is released; two events taken
    before the second [messageW.Add(1)] make the wait group panic. *)
Lemma messageW_counts_msgrecv_witness :
  let same := [MainStep; MainStep; MainStep; MainStep; PeerEvent NodeOne "add";
               PeerEvent NodeOne "msgrecv"; PeerEvent NodeOne "msgrecv"] in
  let early := [MainStep; MainStep; PeerEvent NodeOne "msgrecv";
                PeerEvent NodeOne "msgrecv"] in
  (panicked (run start same) = false ∧ main (run start same) = AtWait ∧
   messageW (run start same) = adds (main (run start same)) - taken start same ∧
   taken start same = 2 ∧
   released (on_occ (run start same) MainStep) = true) ∧
  (panicked (run start early) = true ∧
   main (run start early) = AtAddTwo ∧
   adds (main (run start early)) < taken start early).
Proof.
  intros same early.
  assert (panicked (run start same) = false) as Hn by reflexivity.
  assert (main (run start same) = AtWait) as Hm by reflexivity.
  assert (taken start same = 2) as Ht by reflexivity.
  assert (panicked (run start early) = true) as Hp by reflexivity.
  destruct (messageW_counts_msgrecv same) as (H1 & _ & H3 & _).
  destruct (messageW_counts_msgrecv early) as (_ & H2 & _ & _).
  split.
  - split; [exact Hn|]. split; [exact Hm|]. split; [exact (proj1 (H1 Hn))|].
    split; [exact Ht|]. exact (proj2 (H3 Hn Hm) Ht).
  - split; [exact Hp|]. split; [reflexivity|]. exact (proj1 H2 Hp).
Defined.

End ReplyFacts.

Module HarnessFacts.
Import Harness.

Lemma connect_from_tail nids0 hub i l :
  nids0 !! 0%nat = Some hub →
  connect_from nids0 (S i) l = Some ((λ nid, (hub, nid)) <$> l).
Proof.
  intros Hh. revert i. induction l as [|nid l IH]; intros i; simpl; [done|].
  by rewrite Hh, IH.
Qed.

Lemma stop_from_tail i l : stop_from (S i) l = l.
Proof. revert i. induction l as [|nid l IH]; intros i; simpl; [done|]. by rewrite IH. Qed.

(** X8.  The connections form a star around the first node: the loop
    never indexes out of range and connects [nids[0]] to every node after
    the first, in order, and makes no other connection; the nodes stopped
    after the step are exactly the nodes at the points of the star, and the
    first node is left running. *)
Theorem star_topology (nids : list ID) :
  connects nids
    = Some (match nids with
            | [] => []
            | hub :: rest => (λ nid, (hub, nid)) <$> rest
            end) ∧
  stops nids = tail nids ∧
  (∀ cs, connects nids = Some cs →
     snd <$> cs = stops nids ∧ length cs = pred (length nids) ∧
     Forall (λ c, head nids = Some (fst c)) cs).
Proof.
  assert (connects nids
          = Some (match nids with
                  | [] => []
                  | hub :: rest => (λ nid, (hub, nid)) <$> rest
                  end)) as Hc.
  { destruct nids as [|hub rest]; [done|]. unfold connects. simpl.
    by apply connect_from_tail. }
  assert (stops nids = tail nids) as Hs.
  { destruct nids as [|hub rest]; [done|]. unfold stops. simpl. apply stop_from_tail. }
  split_and!; [done..|].
  intros cs Hcs. rewrite Hc in Hcs. simplify_eq. rewrite Hs.
  destruct nids as [|hub rest]; simpl; [done|].
  rewrite <- list_fmap_compose, length_fmap. split_and!; [|done|].
  - by rewrite list_fmap_id.
  - apply Forall_fmap. by apply Forall_true.
Qed.

Lemma action_from_ok net i l :
  Forall (reachable_node net) l →
  action_from net (S i) l
    = mkOutcome (SendAfter defaultSimDuration <$> l) (set_idle <$> l) None.
Proof.
  intros H. revert i. induction H as [|nid l [Hc Hr] _ IH]; intros i; simpl; [done|].
  fold (set_idle nid). by rewrite Hc, Hr, IH.
Qed.

Lemma action_from_fail net i pre bad post err made :
  Forall (reachable_node net) pre → fails_at net bad err made →
  action_from net (S i) (pre ++ bad :: post)
    = mkOutcome (SendAfter defaultSimDuration <$> pre)
                ((set_idle <$> pre) ++ made) (Some err).
Proof.
  intros H Hf. revert i. induction H as [|nid l [Hc Hr] _ IH]; intros i; simpl.
  - fold (set_idle bad).
    destruct Hf as [[Hc ->]|(Hc & Hr & ->)]; rewrite Hc; [done|]. by rewrite Hr.
  - fold (set_idle nid). by rewrite Hc, Hr, IH.
Qed.

(** X9.  When every node but the first accepts the call, the action
    returns nil, having started one goroutine per node, in order: for the
    first node one that triggers at once, for each other node one that
    triggers when its timer of five seconds fires; it has called
    demo_setDifficulty with 0 on every node but the first, once each, and on
    nothing else. *)
Theorem action_succeeds (net : Net) (hub : ID) (rest : list ID) :
  Forall (reachable_node net) rest →
  action net (hub :: rest)
    = mkOutcome (SendNow hub :: (SendAfter (Second * 5) <$> rest))
                (set_idle <$> rest) None.
Proof.
  intros H. unfold action. simpl. by rewrite (action_from_ok net 0 rest H).
Qed.

(** X10.  The action returns the first failure it meets, of the client or
    of the call.  It has then dealt with the nodes before the failing one
    only: their goroutines are started and stay started, their calls are
    made; the nodes after the failing one get no call and no goroutine. *)
Theorem action_stops_at_first_failure
    (net : Net) (hub : ID) (pre post : list ID) (bad : ID) (err : Error)
    (made : list Rpc) :
  Forall (reachable_node net) pre → fails_at net bad err made →
  action net (hub :: pre ++ bad :: post)
    = mkOutcome (SendNow hub :: (SendAfter (Second * 5) <$> pre))
                ((set_idle <$> pre) ++ made) (Some err).
Proof.
  intros H Hf. unfold action. simpl.
  by rewrite (action_from_fail net 0 pre bad post err made H Hf).
Qed.

Lemma action_succeeds_witness :
  let net := mkNet (λ _, None) (λ _, None) in
  Forall (reachable_node net) [2; 3] ∧
  action net [1; 2; 3]
    = mkOutcome [SendNow 1; SendAfter 5000000000 2; SendAfter 5000000000 3]
                [set_idle 2; set_idle 3] None.
Proof.
  intros net.
  assert (Forall (reachable_node net) [2; 3]) as H
    by (repeat first [apply Forall_nil_2 | apply Forall_cons_2]; by split).
  split; [exact H|]. exact (action_succeeds net 1 [2; 3] H).
Defined.

Lemma action_stops_at_first_failure_witness :
  let net := mkNet (λ _, None)
                   (λ c, if decide (rpc_node c = 3) then Some "connection refused"
                         else None) in
  Forall (reachable_node net) [2] ∧
  fails_at net 3 "connection refused" [set_idle 3] ∧
  action net (1 :: [2] ++ 3 :: [4; 5])
    = mkOutcome [SendNow 1; SendAfter 5000000000 2]
                [set_idle 2; set_idle 3] (Some "connection refused").
Proof.
  intros net.
  assert (Forall (reachable_node net) [2]) as H
    by (repeat first [apply Forall_nil_2 | apply Forall_cons_2]; by split).
  assert (fails_at net 3 "connection refused" [set_idle 3]) as Hf
    by (right; by split_and!).
  split; [exact H|]. split; [exact Hf|].
  exact (action_stops_at_first_failure net 1 [2] [4; 5] 3 _ _ H Hf).
Defined.


Section ServicesFacts.
Variable NewDemoParams : option ResultSink → DemoParams.

Lemma demo_services_later fl ids : ∀ k id,
  ids !! k = Some id →
  ∃ p, demo_services NewDemoParams fl true ids !! k = Some p ∧
       Id p = id ∧
       MaxDifficulty p
         = MaxDifficulty (NewDemoParams (sink_for fl (resourceEnsName fl id))) ∧
       MaxJobs p = 100 ∧ MaxTimePerJob p = Second * 10 ∧
       SubmitDelay p = Millisecond * 100 ∧ SubmitDataSize p = 32 ∧
       MaxSubmitDifficulty p = 24 ∧ MinSubmitDifficulty p = 8.
Proof.
  induction ids as [|id0 ids IH]; intros k id Hk; [done|].
  destruct k as [|k]; simplify_eq/=.
  - eexists. split; [done|]. by split_and!.
  - by apply IH.
Qed.

(** X12.  One value of [newServices()] appoints one worker.  Of the
    services it builds, the first gets the maximal difficulty 24; every later
    one keeps the difficulty [service.NewDemoParams] gave it.  All of them get
    the node's id and the same budget: 100 jobs, 10 seconds per job, 100
    milliseconds between submissions, 32 bytes of data, submit difficulties
    between 8 and 24. *)
Theorem one_worker_per_newServices
    (fl : Flags) (ids : list (list Byte.byte)) (k : nat) (id : list Byte.byte) :
  ids !! k = Some id →
  ∃ p, demo_services NewDemoParams fl false ids !! k = Some p ∧
       Id p = id ∧
       MaxDifficulty p
         = (if decide (k = 0%nat) then 24
            else MaxDifficulty (NewDemoParams (sink_for fl (resourceEnsName fl id)))) ∧
       MaxJobs p = 100 ∧ MaxTimePerJob p = Second * 10 ∧
       SubmitDelay p = Millisecond * 100 ∧ SubmitDataSize p = 32 ∧
       MaxSubmitDifficulty p = 24 ∧ MinSubmitDifficulty p = 8.
Proof.
  intros Hk. destruct ids as [|id0 ids]; [done|].
  destruct k as [|k]; simplify_eq/=.
  - eexists. split; [done|]. by split_and!.
  - by apply demo_services_later.
Qed.

End ServicesFacts.

Lemma one_worker_per_newServices_witness :
  let ndp := λ (_ : option ResultSink), mkParams 1 1 0 1 1 1 1 [] in
  let fl := mkFlags false "" in
  let ids := [[Byte.x01]; [Byte.x02]; [Byte.x03]] in
  ids !! 2%nat = Some [Byte.x03] ∧
  ∃ p, demo_services ndp fl false ids !! 2%nat = Some p ∧
       Id p = [Byte.x03] ∧
       MaxDifficulty p
         = (if decide (2%nat = 0%nat) then 24
            else MaxDifficulty (ndp (sink_for fl (resourceEnsName fl [Byte.x03])))) ∧
       MaxJobs p = 100 ∧ MaxTimePerJob p = Second * 10 ∧
       SubmitDelay p = Millisecond * 100 ∧ SubmitDataSize p = 32 ∧
       MaxSubmitDifficulty p = 24 ∧ MinSubmitDifficulty p = 8.
Proof.
  intros ndp fl ids. split; [reflexivity|].
  exact (one_worker_per_newServices ndp fl ids 2%nat [Byte.x03] eq_refl).
Defined.

Lemma hex_digit_not_dot n : (n < 16)%N → hex_digit n ≠ Ascii.ascii_of_N 46.
Proof.
  intros Hn.
  assert (∃ k, (k < 16)%nat ∧ n = N.of_nat k) as (k & Hk & ->)
    by (exists (N.to_nat n); lia).
  do 16 (destruct k as [|k]; [vm_compute; discriminate|]). lia.
Qed.

Lemma hex_digit_inj n m :
  (n < 16)%N → (m < 16)%N → hex_digit n = hex_digit m → n = m.
Proof.
  intros Hn Hm.
  assert (∀ x, (x < 16)%N →
            (let v := Ascii.N_of_ascii (hex_digit x) in
             if (v <? 58)%N then v - 48 else v - 87)%N = x) as Hdec.
  { intros x Hx.
    assert (∃ k, (k < 16)%nat ∧ x = N.of_nat k) as (k & Hk & ->)
      by (exists (N.to_nat x); lia).
    do 16 (destruct k as [|k]; [vm_compute; reflexivity|]). lia. }
  intros H. rewrite <- (Hdec n Hn), <- (Hdec m Hm). by rewrite H.
Qed.

Lemma byte_digits b :
  (Byte.to_N b / 16 < 16)%N ∧ (Byte.to_N b mod 16 < 16)%N.
Proof.
  pose proof (Byte.to_N_bounded b). split.
  - apply N.Div0.div_lt_upper_bound. lia.
  - apply N.mod_lt. lia.
Qed.

Lemma byte_of_digits b1 b2 :
  (Byte.to_N b1 / 16 = Byte.to_N b2 / 16)%N →
  (Byte.to_N b1 mod 16 = Byte.to_N b2 mod 16)%N → b1 = b2.
Proof.
  intros Hd Hm.
  assert (Byte.to_N b1 = Byte.to_N b2) as H.
  { rewrite (N.div_mod (Byte.to_N b1) 16), (N.div_mod (Byte.to_N b2) 16) by lia.
    by rewrite Hd, Hm. }
  pose proof (Byte.of_to_N b1) as H1. rewrite H, Byte.of_to_N in H1. by simplify_eq.
Qed.

Lemma hex_name_inj sfx : ∀ id1 id2,
  (∀ c rest, sfx = String c rest → c = Ascii.ascii_of_N 46) →
  hex id1 +:+ sfx = hex id2 +:+ sfx → id1 = id2.
Proof.
  intros id1. induction id1 as [|b1 id1 IH]; intros [|b2 id2] Hs H; simpl in H.
  - done.
  - exfalso. destruct (byte_digits b2) as [Hd _].
    apply (hex_digit_not_dot _ Hd), (Hs _ _ H).
  - exfalso. destruct (byte_digits b1) as [Hd _].
    symmetry in H. apply (hex_digit_not_dot _ Hd), (Hs _ _ H).
  - injection H as Hhi Hlo Hrest.
    destruct (byte_digits b1) as [? ?], (byte_digits b2) as [? ?].
    apply hex_digit_inj in Hhi, Hlo; [|done..].
    f_equal; [by apply byte_of_digits|by apply IH].
Qed.

(** X13.  The name of the resource a node posts to.  Without the flag e
    two nodes get the same name only if they have the same id: the name is
    the id in hexadecimal, two digits per byte, followed by .mutable.test.
    With the flag e every node gets the name given by the flag, whatever its
    id. *)
Theorem resource_names (fl : Flags) (id1 id2 : list Byte.byte) :
  (ensAddr fl = "" →
     resourceEnsName fl id1 = hex id1 +:+ ".mutable.test" ∧
     String.length (hex id1) = (2 * length id1)%nat ∧
     (resourceEnsName fl id1 = resourceEnsName fl id2 → id1 = id2)) ∧
  (ensAddr fl ≠ "" →
     resourceEnsName fl id1 = ensAddr fl ∧
     resourceEnsName fl id1 = resourceEnsName fl id2).
Proof.
  unfold resourceEnsName. split.
  - intros ->. simpl. split_and!; [done| |].
    + induction id1 as [|b id1 IH]; simpl; [done|]. rewrite IH. lia.
    + apply hex_name_inj. by intros c rest [= <- _].
  - intros Hne. destruct (String.eqb (ensAddr fl) "") eqn:He; [|done].
    by apply String.eqb_eq in He.
Qed.

Lemma resource_names_witness :
  let id1 := [Byte.x0a; Byte.xff] in
  let id2 := [Byte.x0a; Byte.xfe] in
  (resourceEnsName (mkFlags false "") id1 = "0aff.mutable.test" ∧
   resourceEnsName (mkFlags false "") id2 = "0afe.mutable.test") ∧
  (resourceEnsName (mkFlags true "demo.eth") id1 = "demo.eth" ∧
   resourceEnsName (mkFlags true "demo.eth") id1
     = resourceEnsName (mkFlags true "demo.eth") id2).
Proof.
  intros id1 id2.
  destruct (resource_names (mkFlags false "") id1 id2) as [H1 _].
  destruct (resource_names (mkFlags false "") id2 id1) as [H2 _].
  destruct (resource_names (mkFlags true "demo.eth") id1 id2) as [_ H3].
  split.
  - split; [apply (H1 eq_refl)|apply (H2 eq_refl)].
  - apply H3. discriminate.
Defined.

End HarnessFacts.
